(** * Transcript aggregation of [TranscriptManager.jsx]

    A shallow embedding of the effect that turns the realtime event log
    into the conversation transcript
    (src/components/TranscriptManager.jsx, lines 4-385), and the
    properties of that effect.

    The component keeps two pieces of state: the [transcript] array
    (React state, only ever replaced through functional updaters) and the
    [processedEventIds] set (a ref holding a JavaScript [Set]).  Both are
    threaded explicitly through [ingest]. *)

From Stdlib Require Import QArith.
From stdpp Require Import gmap strings list.

Close Scope Q_scope.

Local Open Scope string_scope.
Local Open Scope list_scope.

(** ** JavaScript values that the effect reads *)

(** A property that holds a string or is absent ([undefined]). *)
Definition jsval := option string.

(** Truthiness of such a property: absent and the empty string are falsy. *)
Definition truthy (v : jsval) : bool :=
  match v with
  | Some s => negb (String.eqb s EmptyString)
  | None => false
  end.

(** [a || b] on two such properties. *)
Definition js_or (a b : jsval) : jsval := if truthy a then a else b.

(** The string inside a truthy value: [if (v) { ... v ... }]. *)
Definition when_truthy (v : jsval) : option string :=
  match v with
  | Some s => if String.eqb s EmptyString then None else Some s
  | None => None
  end.

(** [v === lit] for a string literal. *)
Definition js_is (v : jsval) (lit : string) : bool :=
  match v with
  | Some s => String.eqb s lit
  | None => false
  end.

(** ** Raw events *)

Module Content.
(** One element of [event.item.content]. *)
Record t := mk {
  type : jsval;
  text : jsval;
  transcript : jsval
}.
End Content.

Module Item.
Record t := mk {
  type : jsval;
  role : jsval;
  content : option (list Content.t)
}.
End Item.

Module Event.
(** The properties of a raw event that the effect reads.  An [event_id]
    and the text properties are strings when present; a [type] that
    matches no case label stands for an absent one as well. *)
Record t := mk {
  event_id : jsval;
  type : string;
  delta : jsval;
  text : jsval;
  transcript : jsval;
  output_text : jsval;
  item : option Item.t
}.

(** An event of the given type with no other property set. *)
Definition bare (ty : string) : t :=
  mk None ty None None None None None.

Definition with_id (i : string) (e : t) : t :=
  mk (Some i) (type e) (delta e) (text e) (transcript e) (output_text e) (item e).
Definition with_delta (d : string) (e : t) : t :=
  mk (event_id e) (type e) (Some d) (text e) (transcript e) (output_text e) (item e).
Definition with_text (x : string) (e : t) : t :=
  mk (event_id e) (type e) (delta e) (Some x) (transcript e) (output_text e) (item e).
Definition with_transcript (x : string) (e : t) : t :=
  mk (event_id e) (type e) (delta e) (text e) (Some x) (output_text e) (item e).
Definition with_item (it : Item.t) (e : t) : t :=
  mk (event_id e) (type e) (delta e) (text e) (transcript e) (output_text e) (Some it).
End Event.

(** ** Transcript entries *)

Inductive Speaker := user | assistant.

Global Instance Speaker_eq_dec : EqDecision Speaker.
Proof. solve_decision. Defined.

(** The [id] of an entry is [event.event_id || Date.now() + Math.random()]:
    the event's id when it is truthy, a generated number otherwise. *)
Inductive EntryId :=
| IdOfEvent (s : string)
| IdGenerated (n : Q).

Module Entry.
(** The object literals of the effect.  [isPartial] is absent ([None])
    on the entries that are created already final. *)
Record t := mk {
  id : EntryId;
  speaker : Speaker;
  message : string;
  timestamp : Z;
  type : Speaker;
  isPartial : option bool
}.

(** [lastEntry.isPartial] used as a condition. *)
Definition partial (e : t) : bool :=
  match isPartial e with
  | Some b => b
  | None => false
  end.

(** [{ ...lastEntry, message: lastEntry.message + deltaText }] *)
Definition grow (deltaText : string) (e : t) : t :=
  mk (id e) (speaker e) (message e +:+ deltaText) (timestamp e) (type e) (isPartial e).

(** [{ ...lastEntry, message: text, isPartial: false }] *)
Definition finalize (text : string) (e : t) : t :=
  mk (id e) (speaker e) text (timestamp e) (type e) (Some false).
End Entry.

(** What the environment supplies to one run of the effect: the value of
    [Date.now() + Math.random()] and the time of [new Date()]. *)
Record Env := {
  now_plus_random : Q;
  new_Date : Z
}.

Definition entry_id (env : Env) (event : Event.t) : EntryId :=
  match when_truthy (Event.event_id event) with
  | Some s => IdOfEvent s
  | None => IdGenerated (now_plus_random env)
  end.

(** The entry literal built in every branch; [partial] tells whether the
    literal carries [isPartial: true]. *)
Definition new_entry (env : Env) (event : Event.t) (who : Speaker)
    (text : string) (partial : bool) : Entry.t :=
  Entry.mk (entry_id env event) who text (new_Date env) who
           (if partial then Some true else None).

(** ** Component state *)

Record State := {
  transcript : list Entry.t;
  processedEventIds : gset jsval
}.

Definition initial : State :=
  {| transcript := []; processedEventIds := ∅ |}.

(** [setTranscript(updater); processedEventIds.current.add(event.event_id)] *)
Definition update_and_record (updater : list Entry.t → list Entry.t)
    (event : Event.t) (s : State) : State :=
  {| transcript := updater (transcript s);
     processedEventIds := {[ Event.event_id event ]} ∪ processedEventIds s |}.

(** ** The updaters passed to [setTranscript] *)

(** [prev.slice(0, -1)] *)
Definition slice_0_m1 (prev : list Entry.t) : list Entry.t :=
  take (length prev - 1) prev.

(** Delta branches (lines 56-73, 96-113, 176-193, 202-219, 280-297,
    306-323): grow the last entry when it is a partial one of type [who],
    push a new partial entry otherwise. *)
Definition delta_updater (env : Env) (event : Event.t) (who : Speaker)
    (deltaText : string) (prev : list Entry.t) : list Entry.t :=
  match last prev with
  | Some lastEntry =>
      if bool_decide (Entry.type lastEntry = who) && Entry.partial lastEntry
      then slice_0_m1 prev ++ [Entry.grow deltaText lastEntry]
      else prev ++ [new_entry env event who deltaText true]
  | None => prev ++ [new_entry env event who deltaText true]
  end.

(** [input_audio_buffer.transcription.completed] (lines 151-167):
    finalize the last entry when it is a partial one of type user. *)
Definition user_completed_updater (env : Env) (event : Event.t)
    (text : string) (prev : list Entry.t) : list Entry.t :=
  match last prev with
  | Some lastEntry =>
      if bool_decide (Entry.type lastEntry = user) && Entry.partial lastEntry
      then slice_0_m1 prev ++ [Entry.finalize text lastEntry]
      else prev ++ [new_entry env event user text false]
  | None => prev ++ [new_entry env event user text false]
  end.

(** Assistant done branches (lines 229-245, 254-270, 332-348, 356-372):
    finalize the last entry when it is partial, whatever its type. *)
Definition done_updater (env : Env) (event : Event.t)
    (text : string) (prev : list Entry.t) : list Entry.t :=
  match last prev with
  | Some lastEntry =>
      if Entry.partial lastEntry
      then slice_0_m1 prev ++ [Entry.finalize text lastEntry]
      else prev ++ [new_entry env event assistant text false]
  | None => prev ++ [new_entry env event assistant text false]
  end.

(** [prev => [...prev, transcriptEntry]] (line 381) *)
Definition push_updater (entry : Entry.t) (prev : list Entry.t) : list Entry.t :=
  prev ++ [entry].

(** ** The [switch (event.type)] *)

Inductive Case :=
| conversation_item_create
| conversation_item_input_audio_transcription_delta
| input_audio_buffer_speech_started
| input_audio_buffer_speech_stopped
| input_audio_buffer_committed
| input_audio_buffer_transcription_delta
| conversation_item_input_audio_transcription_completed
| conversation_item_added
| input_audio_buffer_transcription_completed
| response_audio_transcript_delta
| response_output_audio_transcript_delta
| response_audio_transcript_done
| response_output_audio_transcript_done
| response_text_delta
| response_output_text_delta
| response_text_done
| response_output_text_done.

(** The label of each [case], in the order of the source. *)
Definition case_labels : list (string * Case) :=
  [ ("conversation.item.create", conversation_item_create);
    ("conversation.item.input_audio_transcription.delta",
       conversation_item_input_audio_transcription_delta);
    ("input_audio_buffer.speech_started", input_audio_buffer_speech_started);
    ("input_audio_buffer.speech_stopped", input_audio_buffer_speech_stopped);
    ("input_audio_buffer.committed", input_audio_buffer_committed);
    ("input_audio_buffer.transcription.delta", input_audio_buffer_transcription_delta);
    ("conversation.item.input_audio_transcription.completed",
       conversation_item_input_audio_transcription_completed);
    ("conversation.item.added", conversation_item_added);
    ("input_audio_buffer.transcription.completed",
       input_audio_buffer_transcription_completed);
    ("response.audio_transcript.delta", response_audio_transcript_delta);
    ("response.output_audio_transcript.delta", response_output_audio_transcript_delta);
    ("response.audio_transcript.done", response_audio_transcript_done);
    ("response.output_audio_transcript.done", response_output_audio_transcript_done);
    ("response.text.delta", response_text_delta);
    ("response.output_text.delta", response_output_text_delta);
    ("response.text.done", response_text_done);
    ("response.output_text.done", response_output_text_done) ].

Fixpoint find_case (labels : list (string * Case)) (ty : string) : option Case :=
  match labels with
  | [] => None
  | (lbl, c) :: rest => if String.eqb ty lbl then Some c else find_case rest ty
  end.

(** The case selected by [switch (event.type)]; [None] when no label
    matches and control falls out of the switch. *)
Definition switch_case (ty : string) : option Case := find_case case_labels ty.

(** [event.item.content?.[0]], guarded by
    [event.item?.type === 'message' && event.item?.role === 'user']
    (lines 38-39 and 135-136). *)
Definition user_message_content (event : Event.t) : option Content.t :=
  match Event.item event with
  | Some it =>
      if js_is (Item.type it) "message" && js_is (Item.role it) "user"
      then match Item.content it with
           | Some parts => head parts
           | None => None
           end
      else None
  | None => None
  end.

(** [content?.type === kind && content?.field] with the value of the field. *)
Definition content_field (event : Event.t) (kind : string)
    (field : Content.t → jsval) : option string :=
  match user_message_content event with
  | Some content =>
      if js_is (Content.type content) kind then when_truthy (field content) else None
  | None => None
  end.

(** ** The effect *)

(** The branches that build [transcriptEntry] and [break]; the entry is
    pushed after the switch (lines 380-383). *)
Definition push_branch (env : Env) (event : Event.t) (text : option string)
    (s : State) : State :=
  match text with
  | Some msg => update_and_record (push_updater (new_entry env event user msg false)) event s
  | None => s
  end.

(** The branches that call [setTranscript] themselves and [return]. *)
Definition update_branch (event : Event.t) (text : option string)
    (updater : string → list Entry.t → list Entry.t) (s : State) : State :=
  match text with
  | Some msg => update_and_record (updater msg) event s
  | None => s
  end.

(** The switch and the push that follows it, lines 32-383. *)
Definition dispatch (env : Env) (event : Event.t) (s : State) : State :=
    match switch_case (Event.type event) with
    | Some conversation_item_create =>
        push_branch env event (content_field event "input_text" Content.text) s
    | Some conversation_item_input_audio_transcription_delta =>
        update_branch event
          (when_truthy (js_or (Event.delta event) (Event.text event)))
          (delta_updater env event user) s
    | Some input_audio_buffer_speech_started => s
    | Some input_audio_buffer_speech_stopped => s
    | Some input_audio_buffer_committed => s
    | Some input_audio_buffer_transcription_delta =>
        update_branch event
          (when_truthy (js_or (Event.delta event) (Event.text event)))
          (delta_updater env event user) s
    | Some conversation_item_input_audio_transcription_completed =>
        push_branch env event (when_truthy (Event.transcript event)) s
    | Some conversation_item_added =>
        push_branch env event (content_field event "input_audio" Content.transcript) s
    | Some input_audio_buffer_transcription_completed =>
        update_branch event (when_truthy (Event.transcript event))
          (user_completed_updater env event) s
    | Some response_audio_transcript_delta =>
        update_branch event (when_truthy (Event.delta event))
          (delta_updater env event assistant) s
    | Some response_output_audio_transcript_delta =>
        update_branch event
          (when_truthy (js_or (Event.delta event) (Event.text event)))
          (delta_updater env event assistant) s
    | Some response_audio_transcript_done =>
        update_branch event (when_truthy (Event.transcript event))
          (done_updater env event) s
    | Some response_output_audio_transcript_done =>
        update_branch event
          (when_truthy (js_or (Event.transcript event) (Event.text event)))
          (done_updater env event) s
    | Some response_text_delta =>
        update_branch event (when_truthy (Event.delta event))
          (delta_updater env event assistant) s
    | Some response_output_text_delta =>
        update_branch event
          (when_truthy (js_or (Event.delta event) (Event.text event)))
          (delta_updater env event assistant) s
    | Some response_text_done =>
        update_branch event (when_truthy (Event.text event))
          (done_updater env event) s
    | Some response_output_text_done =>
        update_branch event
          (when_truthy (js_or (js_or (Event.text event) (Event.output_text event))
                              (Event.transcript event)))
          (done_updater env event) s
    | None => s
    end.

(** The body of the effect for [event = events[0]], lines 27-383: an
    event whose [event_id] is in the set is skipped (line 28). *)
Definition ingest (env : Env) (event : Event.t) (s : State) : State :=
  if bool_decide (Event.event_id event ∈ processedEventIds s) then s
  else dispatch env event s.

(** The whole effect, run on each change of [events] (lines 19-385):
    an absent or empty log clears both pieces of state, otherwise the
    newest event [events[0]] is ingested.  The log holds objects only
    (the application reads and writes [event.timestamp] before it
    prepends an event), so the test [!event] of line 28 never holds. *)
Definition processEvents (env : Env) (events : option (list Event.t))
    (s : State) : State :=
  match events with
  | None => initial
  | Some [] => initial
  | Some (event :: _) => ingest env event s
  end.

(** The state after a sequence of runs of the effect, oldest first. *)
Fixpoint run (obs : list (Env * option (list Event.t))) (s : State) : State :=
  match obs with
  | [] => s
  | (env, events) :: rest => run rest (processEvents env events s)
  end.

(** ** The normalised view of an event

    The text that the selected branch extracts from the event, when the
    branch finds a truthy one.  It is read off the conditions that guard
    each branch of the switch. *)
Definition payload (event : Event.t) : option string :=
  match switch_case (Event.type event) with
  | Some conversation_item_create => content_field event "input_text" Content.text
  | Some conversation_item_added => content_field event "input_audio" Content.transcript
  | Some conversation_item_input_audio_transcription_delta
  | Some input_audio_buffer_transcription_delta
  | Some response_output_audio_transcript_delta
  | Some response_output_text_delta =>
      when_truthy (js_or (Event.delta event) (Event.text event))
  | Some response_audio_transcript_delta
  | Some response_text_delta => when_truthy (Event.delta event)
  | Some conversation_item_input_audio_transcription_completed
  | Some input_audio_buffer_transcription_completed
  | Some response_audio_transcript_done => when_truthy (Event.transcript event)
  | Some response_output_audio_transcript_done =>
      when_truthy (js_or (Event.transcript event) (Event.text event))
  | Some response_text_done => when_truthy (Event.text event)
  | Some response_output_text_done =>
      when_truthy (js_or (js_or (Event.text event) (Event.output_text event))
                         (Event.transcript event))
  | Some input_audio_buffer_speech_started
  | Some input_audio_buffer_speech_stopped
  | Some input_audio_buffer_committed
  | None => None
  end.

(** The events of the switch that have no branch body, and the types
    without a case. *)
Definition ignored (event : Event.t) : bool :=
  match switch_case (Event.type event) with
  | Some input_audio_buffer_speech_started
  | Some input_audio_buffer_speech_stopped
  | Some input_audio_buffer_committed
  | None => true
  | Some _ => false
  end.

(** ** Properties of transcripts *)

(** Two entries that are both partial and of the same speaker. *)
Definition clash (a b : Entry.t) : Prop :=
  Entry.isPartial a = Some true ∧ Entry.isPartial b = Some true ∧
  Entry.speaker a = Entry.speaker b.

(** No two neighbours of the transcript clash. *)
Definition no_adjacent_partials (t : list Entry.t) : Prop :=
  ∀ i a b, t !! i = Some a → t !! S i = Some b → ¬ clash a b.

(** Every entry carries the same value in [speaker] and in [type]. *)
Definition type_is_speaker (t : list Entry.t) : Prop :=
  Forall (λ x, Entry.type x = Entry.speaker x) t.

(** ** The updaters, characterised *)

Inductive is_updater (env : Env) (event : Event.t) :
    (list Entry.t → list Entry.t) → Prop :=
| upd_delta who d : is_updater env event (delta_updater env event who d)
| upd_user_completed x : is_updater env event (user_completed_updater env event x)
| upd_done x : is_updater env event (done_updater env event x)
| upd_push x : is_updater env event (push_updater (new_entry env event user x false)).

(** The two outcomes of one run of [ingest]: nothing happens, whatever
    the environment, or one updater is applied and the id recorded. *)
Inductive ingest_outcome (env : Env) (event : Event.t) (s : State) : State → Prop :=
| outcome_unchanged :
    (∀ env', ingest env' event s = s) → ingest_outcome env event s s
| outcome_updated u :
    Event.event_id event ∉ processedEventIds s →
    is_updater env event u →
    ingest_outcome env event s (update_and_record u event s).

(** One step on the transcript: an entry is pushed, or the last entry is
    rewritten keeping its speaker and type, its partial flag kept or
    cleared. *)
Inductive transcript_step (prev : list Entry.t) : list Entry.t → Prop :=
| step_push x :
    (Entry.isPartial x = Some true →
     ∀ l, last prev = Some l →
          ¬ (Entry.isPartial l = Some true ∧ Entry.type l = Entry.type x)) →
    Entry.type x = Entry.speaker x →
    transcript_step prev (prev ++ [x])
| step_rewrite front l l' :
    prev = front ++ [l] →
    Entry.speaker l' = Entry.speaker l →
    Entry.type l' = Entry.type l →
    (Entry.isPartial l' = Entry.isPartial l ∨ Entry.isPartial l' = Some false) →
    transcript_step prev (front ++ [l']).

(** The invariant carried along every run of the effect. *)
Definition well_formed (s : State) : Prop :=
  type_is_speaker (transcript s) ∧ no_adjacent_partials (transcript s).

(** ** Sample inputs *)

Definition env0 : Env := {| now_plus_random := 3 # 2; new_Date := 1000 |}.
Definition env1 : Env := {| now_plus_random := 7 # 4; new_Date := 2000 |}.

(** [{ event_id: "evt_1", type: "response.text.delta", delta: "Hi" }] *)
Definition sample_delta : Event.t :=
  Event.with_id "evt_1" (Event.with_delta "Hi" (Event.bare "response.text.delta")).

(** [{ event_id: "evt_7", type: "input_audio_buffer.speech_started" }] *)
Definition sample_speech_started : Event.t :=
  Event.with_id "evt_7" (Event.bare "input_audio_buffer.speech_started").

(** ** Event builders for the scenarios *)

(** [{ event_id: i, type: ty, delta: d }] *)
Definition delta_event (ty i d : string) : Event.t :=
  Event.with_id i (Event.with_delta d (Event.bare ty)).

(** [{ event_id: i, type: ty, transcript: x }] *)
Definition transcript_event (ty i x : string) : Event.t :=
  Event.with_id i (Event.with_transcript x (Event.bare ty)).

(** [{ event_id: i, type: ty, text: x }] *)
Definition text_event (ty i x : string) : Event.t :=
  Event.with_id i (Event.with_text x (Event.bare ty)).

(** The event that [sendTextMessage] builds (part_001, lines 119-131):
    [{ event_id: i, type: "conversation.item.create",
       item: { type: "message", role: "user",
               content: [{ type: "input_text", text: x }] } }] *)
Definition user_text_event (i x : string) : Event.t :=
  Event.with_id i
    (Event.with_item
       (Item.mk (Some "message") (Some "user")
                (Some [Content.mk (Some "input_text") (Some x) None]))
       (Event.bare "conversation.item.create")).

(** The raw types of the assistant audio transcript, partial and final,
    each under its two names. *)
Definition assistant_audio_delta_types : list string :=
  ["response.audio_transcript.delta"; "response.output_audio_transcript.delta"].

Definition assistant_audio_done_types : list string :=
  ["response.audio_transcript.done"; "response.output_audio_transcript.done"].

(** The raw types of the four assistant done branches. *)
Definition assistant_done_types : list string :=
  ["response.audio_transcript.done"; "response.output_audio_transcript.done";
   "response.text.done"; "response.output_text.done"].

(** The raw types of the final user audio transcription. *)
Definition user_audio_completed_types : list string :=
  ["conversation.item.input_audio_transcription.completed";
   "input_audio_buffer.transcription.completed"].

(** [{ type: "response.text.delta", delta: d }], no [event_id]. *)
Definition idless_delta (d : string) : Event.t :=
  Event.with_delta d (Event.bare "response.text.delta").

(** The state after the assistant delta ["Hi"]. *)
Definition after_assistant_partial : State :=
  ingest env0 (delta_event "response.audio_transcript.delta" "evt_1" "Hi") initial.

(** The state after the user audio delta ["Hel"]. *)
Definition after_user_partial : State :=
  ingest env0
    (delta_event "conversation.item.input_audio_transcription.delta" "evt_1" "Hel") initial.

(** ** The branches by kind

    The seventeen cases fall into four kinds by the updater they apply;
    the three [input_audio_buffer] cases that return at once have none. *)
Inductive Kind :=
| PushUser
| Delta (who : Speaker)
| UserCompleted
| Done.

Definition kind_of_case (c : Case) : option Kind :=
  match c with
  | conversation_item_create
  | conversation_item_input_audio_transcription_completed
  | conversation_item_added => Some PushUser
  | conversation_item_input_audio_transcription_delta
  | input_audio_buffer_transcription_delta => Some (Delta user)
  | input_audio_buffer_transcription_completed => Some UserCompleted
  | response_audio_transcript_delta
  | response_output_audio_transcript_delta
  | response_text_delta
  | response_output_text_delta => Some (Delta assistant)
  | response_audio_transcript_done
  | response_output_audio_transcript_done
  | response_text_done
  | response_output_text_done => Some Done
  | input_audio_buffer_speech_started
  | input_audio_buffer_speech_stopped
  | input_audio_buffer_committed => None
  end.

Definition kind (event : Event.t) : option Kind :=
  match switch_case (Event.type event) with
  | Some c => kind_of_case c
  | None => None
  end.

(** The updater of a kind, on the text [x] that the branch extracted. *)
Definition apply_kind (env : Env) (event : Event.t) (k : Kind) (x : string) :
    list Entry.t → list Entry.t :=
  match k with
  | PushUser => push_updater (new_entry env event user x false)
  | Delta who => delta_updater env event who x
  | UserCompleted => user_completed_updater env event x
  | Done => done_updater env event x
  end.

(** The speaker written into an entry that a branch of this kind creates,
    and whether the entry is created partial. *)
Definition kind_speaker (k : Kind) : Speaker :=
  match k with
  | PushUser | UserCompleted => user
  | Delta who => who
  | Done => assistant
  end.

Definition kind_partial (k : Kind) : bool :=
  match k with
  | Delta _ => true
  | _ => false
  end.

(** The raw types of the delta branches of each speaker. *)
Definition delta_types (who : Speaker) : list string :=
  match who with
  | user =>
      ["conversation.item.input_audio_transcription.delta";
       "input_audio_buffer.transcription.delta"]
  | assistant =>
      ["response.audio_transcript.delta"; "response.output_audio_transcript.delta";
       "response.text.delta"; "response.output_text.delta"]
  end.

(** The raw types of the branches that build [transcriptEntry] and push
    it after the switch. *)
Definition push_types : list string :=
  ["conversation.item.create";
   "conversation.item.input_audio_transcription.completed";
   "conversation.item.added"].

(** What one applied updater does to the transcript, entry by entry: a
    new entry is pushed, or the last entry, a partial one, grows by a
    fragment or is finalized with a text; the texts are non-empty. *)
Inductive entry_step (env : Env) (event : Event.t) (prev : list Entry.t) :
    list Entry.t → Prop :=
| es_push who x p :
    x ≠ EmptyString →
    entry_step env event prev (prev ++ [new_entry env event who x p])
| es_grow front l d :
    prev = front ++ [l] → Entry.partial l = true → d ≠ EmptyString →
    entry_step env event prev (front ++ [Entry.grow d l])
| es_finalize front l x :
    prev = front ++ [l] → Entry.partial l = true → x ≠ EmptyString →
    entry_step env event prev (front ++ [Entry.finalize x l]).

(** ** The other handlers of the component *)

(** [clearTranscript] (lines 423-427): after [confirm], the transcript
    is emptied; [processedEventIds] is not touched. *)
Definition clearTranscript (confirmed : bool) (s : State) : State :=
  if confirmed
  then {| transcript := []; processedEventIds := processedEventIds s |}
  else s.

(** What happens to the component: [events] changes and the effect runs,
    or the clear button is clicked and [confirm] answers. *)
Inductive Action :=
| EventsChanged (env : Env) (events : option (list Event.t))
| ClearClicked (confirmed : bool).

Definition perform (a : Action) (s : State) : State :=
  match a with
  | EventsChanged env events => processEvents env events s
  | ClearClicked confirmed => clearTranscript confirmed s
  end.

Fixpoint perform_all (acts : list Action) (s : State) : State :=
  match acts with
  | [] => s
  | a :: rest => perform_all rest (perform a s)
  end.

(** The actions that clear [processedEventIds]: the effect on an absent
    or empty log. *)
Definition resets (a : Action) : bool :=
  match a with
  | EventsChanged _ None => true
  | EventsChanged _ (Some []) => true
  | _ => false
  end.

(** Successive runs of the effect with the given events as [events[0]],
    oldest first. *)
Fixpoint ingest_all (evs : list (Env * Event.t)) (s : State) : State :=
  match evs with
  | [] => s
  | (env, event) :: rest => ingest_all rest (ingest env event s)
  end.

(** The text of a run of delta events: their fragments, in order. *)
Fixpoint burst_text (evs : list (Env * Event.t)) : string :=
  match evs with
  | [] => EmptyString
  | (_, event) :: rest => default EmptyString (payload event) +:+ burst_text rest
  end.

(** ** More properties of transcripts *)

Definition messages_nonempty (t : list Entry.t) : Prop :=
  Forall (λ x, Entry.message x ≠ EmptyString) t.

(** The ids of the entries that were taken from an event. *)
Definition event_ids (t : list Entry.t) : list string :=
  omap (λ x, match Entry.id x with
             | IdOfEvent i => Some i
             | IdGenerated _ => None
             end) t.

(** The ids taken from events are distinct and all recorded. *)
Definition ids_consistent (s : State) : Prop :=
  NoDup (event_ids (transcript s)) ∧
  ∀ i, i ∈ event_ids (transcript s) → Some i ∈ processedEventIds s.

(** ** What the pane shows of an entry (lines 484-506) *)

(** The bubble classes chosen by [entry.type === 'user']. *)
Definition bubble_class (e : Entry.t) : string :=
  if bool_decide (Entry.type e = user) then "bg-blue-100 ml-4" else "bg-gray-200 mr-4".

(** The label chosen by [entry.speaker === 'user']. *)
Definition speaker_label (e : Entry.t) : string :=
  if bool_decide (Entry.speaker e = user) then "You" else "Assistant".

(** The events of a run: deltas of one speaker, each with a fragment and
    an id that is not yet in the set. *)
Definition delta_run (who : Speaker) (s : State) (evs : list (Env * Event.t)) : Prop :=
  Forall (λ ne, Event.type ne.2 ∈ delta_types who ∧
                is_Some (payload ne.2) ∧
                Event.event_id ne.2 ∉ processedEventIds s) evs ∧
  NoDup (map (λ ne, Event.event_id ne.2) evs).

(** What every state reached from the initial one satisfies. *)
Definition consistent (s : State) : Prop :=
  type_is_speaker (transcript s) ∧
  messages_nonempty (transcript s) ∧
  ids_consistent s.

(** ** The exported text (lines 388-393 and 408-412)

    [exportTranscript] and [copyTranscript] build the same text; the
    first hands it to a download, the second to the clipboard. *)

(** The line feed of the separator ['\n\n']. *)
Definition LF : string := String (Ascii.ascii_of_nat 10) EmptyString.

(** [c.toUpperCase()] for one ASCII character. *)
Definition toUpperCase_ascii (c : Ascii.ascii) : Ascii.ascii :=
  let n := Ascii.nat_of_ascii c in
  if (97 <=? n)%nat && (n <=? 122)%nat then Ascii.ascii_of_nat (n - 32) else c.

(** [s.charAt(0).toUpperCase() + s.slice(1)], for an ASCII string. *)
Definition capitalize (s : string) : string :=
  match s with
  | EmptyString => EmptyString
  | String c rest => String (toUpperCase_ascii c) rest
  end.

(** The string held in [entry.speaker]. *)
Definition speaker_string (who : Speaker) : string :=
  match who with
  | user => "user"
  | assistant => "assistant"
  end.

(** The template literal of one entry; [time] stands for
    [toLocaleTimeString], which depends on the locale of the browser. *)
Definition transcript_line (time : Z → string) (entry : Entry.t) : string :=
  "[" +:+ time (Entry.timestamp entry) +:+ "] " +:+
  capitalize (speaker_string (Entry.speaker entry)) +:+ ": " +:+ Entry.message entry.

(** [transcript.map(...).join('\n\n')] *)
Definition transcriptText (time : Z → string) (t : list Entry.t) : string :=
  String.concat (LF +:+ LF) (map (transcript_line time) t).

(** ** The event log of the application (part_001, lines 9 and 96-198) *)

Module Logged.
(** An object of the log: the properties that the transcript effect
    reads, and the [timestamp] that the application adds. *)
Record t := mk {
  event : Event.t;
  timestamp : jsval
}.
End Logged.

(** The data channel as [sendClientEvent] finds it: [null], or a channel
    whose [send] throws because it is not open, or an open one. *)
Inductive Channel := no_channel | closed_channel | open_channel.

(** The [events] state, newest first, and the messages handed to
    [dataChannel.send], newest first, as they were when stringified. *)
Record App := {
  events : list Logged.t;
  sent : list Logged.t
}.

(** [message.event_id = message.event_id || crypto.randomUUID()] *)
Definition with_event_id (uuid : string) (message : Logged.t) : Logged.t :=
  let e := Logged.event message in
  Logged.mk
    (Event.mk (js_or (Event.event_id e) (Some uuid)) (Event.type e) (Event.delta e)
              (Event.text e) (Event.transcript e) (Event.output_text e) (Event.item e))
    (Logged.timestamp message).

(** [if (!message.timestamp) { message.timestamp = timestamp; }] *)
Definition with_timestamp (now : string) (message : Logged.t) : Logged.t :=
  Logged.mk (Logged.event message)
            (if truthy (Logged.timestamp message) then Logged.timestamp message
             else Some now).

(** How a handler ends: normally, or by the exception of [send] on a
    channel that is not open; either way with the state updates that
    were queued until then. *)
Inductive Outcome :=
| finished (a : App)
| thrown (a : App).

Definition app_of (o : Outcome) : App :=
  match o with
  | finished a => a
  | thrown a => a
  end.

(** [sendClientEvent] (lines 97-116); [now] is
    [new Date().toLocaleTimeString()] and [uuid] is [crypto.randomUUID()]. *)
Definition sendClientEvent (ch : Channel) (now uuid : string) (message : Logged.t)
    (a : App) : Outcome :=
  match ch with
  | no_channel => finished a
  | closed_channel => thrown a
  | open_channel =>
      let m := with_event_id uuid message in
      finished {| events := with_timestamp now m :: events a;
                  sent := m :: sent a |}
  end.


Definition response_create : Logged.t :=
  Logged.mk (Event.bare "response.create") None.


(** The channel that a listener was attached to: it is not [null]. *)
Definition attached (is_open : bool) : Channel :=
  if is_open then open_channel else closed_channel.

(** The listener of [message] (lines 148-161), on the parsed [event]. *)
Definition on_message (is_open : bool) (now now' uuid : string) (event : Logged.t)
    (a : App) : Outcome :=
  let a1 := {| events := with_timestamp now event :: events a; sent := sent a |} in
  if String.eqb (Event.type (Logged.event event))
                "conversation.item.input_audio_transcription.completed"
  then sendClientEvent (attached is_open) now' uuid response_create a1
  else finished a1.

(** The object sent when the channel opens (lines 169-195), as far as
    the effect reads it. *)
Definition session_update : Logged.t :=
  Logged.mk (Event.bare "session.update") None.

(** The listener of [open] (lines 164-196): the log is emptied, then the
    session update is sent. *)
Definition on_open (is_open : bool) (now uuid : string) (a : App) : Outcome :=
  sendClientEvent (attached is_open) now uuid session_update
                  {| events := []; sent := sent a |}.

(** The [events] prop as the transcript effect reads it. *)
Definition events_prop (a : App) : option (list Event.t) :=
  Some (map Logged.event (events a)).

(** ** The routes of the server (part_000, lines 42-110)

    The handlers are seen as functions of what they read: the API key of
    the environment and what the upstream request gives. *)

(** [r.ok]: the status is in the range 200-299. *)
Definition status_ok (status : Z) : bool :=
  (200 <=? status)%Z && (status <=? 299)%Z.

(** The upstream request of [POST /session]: [fetch] rejects, or it
    resolves with a status and a body whose [text()] resolves to a string
    or rejects. *)
Inductive SessionUpstream :=
| session_fetch_rejects
| session_fetched (status : Z) (text : option string).

(** What the handler answers: the status and the body given to [send]. *)
Record SessionAnswer := {
  session_status : Z;
  session_body : string
}.

(** The handler of [POST /session] (lines 42-66). *)
Definition post_session (apiKey : jsval) (up : SessionUpstream) : SessionAnswer :=
  if truthy apiKey then
    match up with
    | session_fetched status (Some sdp) =>
        if status_ok status
        then {| session_status := 200; session_body := sdp |}
        else {| session_status := status; session_body := sdp |}
    | session_fetched _ None
    | session_fetch_rejects =>
        {| session_status := 500; session_body := "Failed to create session" |}
    end
  else {| session_status := 500; session_body := "Missing OPENAI_API_KEY" |}.

Section Token.

(** The values of the parsed JSON, with their truthiness. *)
Context {V : Type} (truthyV : V → bool).








End Token.

(** * Properties *)

(** Freshness of an id against a set of processed ids written as a union
    of singletons. *)
Ltac fresh_id :=
  simpl;
  repeat match goal with
         | H : _ ∉ _ :: _ |- _ => apply not_elem_of_cons in H as [? H]
         end;
  rewrite ?not_elem_of_union, ?not_elem_of_singleton;
  repeat split; try apply not_elem_of_empty; congruence.

Section Lists.

Lemma last_slice (prev : list Entry.t) (l : Entry.t) :
  last prev = Some l → prev = slice_0_m1 prev ++ [l].
Proof.
  intros H. apply last_Some in H as [front ->].
  unfold slice_0_m1. rewrite length_app. simpl.
  replace (length front + 1 - 1) with (length front) by lia.
  by rewrite take_app_length.
Qed.

Lemma slice_snoc (front : list Entry.t) (l : Entry.t) :
  slice_0_m1 (front ++ [l]) = front.
Proof.
  unfold slice_0_m1. rewrite length_app. simpl.
  replace (length front + 1 - 1) with (length front) by lia.
  by rewrite take_app_length.
Qed.

Lemma partial_true (l : Entry.t) :
  Entry.partial l = true ↔ Entry.isPartial l = Some true.
Proof.
  unfold Entry.partial. destruct (Entry.isPartial l) as [[]|]; split; congruence.
Qed.

End Lists.

Lemma is_updater_step env event u prev :
  is_updater env event u → transcript_step prev (u prev).
Proof.
  intros Hu. destruct Hu as [who d|x|x|x].
  - unfold delta_updater. destruct (last prev) as [l|] eqn:Hl.
    + destruct (bool_decide (Entry.type l = who) && Entry.partial l) eqn:Hc.
      * apply last_Some in Hl as [front ->]. rewrite slice_snoc.
        eapply step_rewrite; eauto.
      * apply step_push; [|done]. intros _ l0 Hl0 [Hp Ht].
        assert (l0 = l) by congruence. subst l0. simpl in Ht.
        apply partial_true in Hp. rewrite Hp in Hc.
        rewrite bool_decide_eq_true_2 in Hc; done.
    + apply step_push; [|done]. intros _ l0 Hl0. congruence.
  - unfold user_completed_updater. destruct (last prev) as [l|] eqn:Hl.
    + destruct (bool_decide (Entry.type l = user) && Entry.partial l) eqn:Hc.
      * apply last_Some in Hl as [front ->]. rewrite slice_snoc.
        eapply step_rewrite; eauto.
      * apply step_push; [|done]. simpl. congruence.
    + apply step_push; [|done]. simpl. congruence.
  - unfold done_updater. destruct (last prev) as [l|] eqn:Hl.
    + destruct (Entry.partial l) eqn:Hc.
      * apply last_Some in Hl as [front ->]. rewrite slice_snoc.
        eapply step_rewrite; eauto.
      * apply step_push; [|done]. simpl. congruence.
    + apply step_push; [|done]. simpl. congruence.
  - unfold push_updater. apply step_push; [|done]. simpl. congruence.
Qed.

Lemma push_branch_outcome env event text s :
  Event.event_id event ∉ processedEventIds s →
  (∀ env', push_branch env' event text s = s) ∨
  (∃ u, is_updater env event u ∧ push_branch env event text s = update_and_record u event s).
Proof.
  intros Hid. destruct text as [x|]; simpl; [right|left; done].
  eexists; split; [apply (upd_push env event x)|done].
Qed.

Lemma update_branch_outcome env event text (f : Env → string → list Entry.t → list Entry.t) s :
  (∀ x, is_updater env event (f env x)) →
  (∀ env', update_branch event text (f env') s = s) ∨
  (∃ u, is_updater env event u ∧
        update_branch event text (f env) s = update_and_record u event s).
Proof.
  intros Hf. destruct text as [x|]; simpl; [right|left; done].
  eexists; split; [apply Hf|done].
Qed.

Lemma ingest_outcomeP env event s : ingest_outcome env event s (ingest env event s).
Proof.
  unfold ingest, dispatch. case_bool_decide as Hseen.
  { apply outcome_unchanged. intros env'. unfold ingest.
    by rewrite bool_decide_eq_true_2. }
  assert (Hwrap : ∀ (body : Env → State),
    ((∀ env', body env' = s) ∨
     (∃ u, is_updater env event u ∧ body env = update_and_record u event s)) →
    (∀ env', ingest env' event s = body env') →
    ingest_outcome env event s (body env)).
  { intros body [Hb|(u & Hu & ->)] Hin.
    - rewrite Hb. apply outcome_unchanged. intros env'. by rewrite Hin.
    - by apply outcome_updated. }
  destruct (switch_case (Event.type event)) as [c|] eqn:Hc.
  2:{ apply outcome_unchanged. intros env'. unfold ingest, dispatch.
      by rewrite bool_decide_eq_false_2, Hc. }
  destruct c;
    lazymatch goal with
    | |- ingest_outcome _ _ _ (push_branch _ _ ?text _) =>
        apply (Hwrap (λ env', push_branch env' event text s));
          [by apply push_branch_outcome
          |intros env'; unfold ingest, dispatch; by rewrite bool_decide_eq_false_2, Hc]
    | |- ingest_outcome _ _ _ (update_branch _ ?text (?f _ _ ?who) _) =>
        apply (Hwrap (λ env', update_branch event text (f env' event who) s));
          [apply (update_branch_outcome env event text (λ env', f env' event who));
             intros; once constructor
          |intros env'; unfold ingest, dispatch; by rewrite bool_decide_eq_false_2, Hc]
    | |- ingest_outcome _ _ _ (update_branch _ ?text (?f _ _) _) =>
        apply (Hwrap (λ env', update_branch event text (f env' event) s));
          [apply (update_branch_outcome env event text (λ env', f env' event));
             intros; once constructor
          |intros env'; unfold ingest, dispatch; by rewrite bool_decide_eq_false_2, Hc]
    | |- ingest_outcome _ _ _ s =>
        apply outcome_unchanged; intros env'; unfold ingest, dispatch;
          by rewrite bool_decide_eq_false_2, Hc
    end.
Qed.

(** ** Neighbouring partial entries *)

Section Neighbours.

Implicit Types (t front : list Entry.t) (a b l x : Entry.t).

Lemma no_adjacent_partials_nil : no_adjacent_partials [].
Proof. intros i a b Ha. by rewrite lookup_nil in Ha. Qed.

Lemma no_adjacent_partials_front t x :
  no_adjacent_partials (t ++ [x]) → no_adjacent_partials t.
Proof.
  intros H i a b Ha Hb. apply (H i a b).
  - by apply lookup_app_l_Some.
  - by apply lookup_app_l_Some.
Qed.

Lemma no_adjacent_partials_snoc t x :
  no_adjacent_partials t →
  (∀ l, last t = Some l → ¬ clash l x) →
  no_adjacent_partials (t ++ [x]).
Proof.
  intros Ht Hlast i a b Ha Hb.
  destruct (decide (S i < length t)) as [Hlt|Hge].
  - rewrite lookup_app_l in Ha by lia. rewrite lookup_app_l in Hb by lia.
    by apply (Ht i a b).
  - assert (Hi : S i = length t).
    { apply lookup_lt_Some in Hb. rewrite length_app in Hb. simpl in Hb. lia. }
    rewrite lookup_app_l in Ha by lia.
    rewrite lookup_app_r in Hb by lia.
    replace (S i - length t) with 0 in Hb by lia. simpl in Hb.
    assert (b = x) by congruence. subst b.
    apply Hlast. rewrite last_lookup. by replace (pred (length t)) with i by lia.
Qed.

Lemma transcript_step_type t t' :
  transcript_step t t' → type_is_speaker t → type_is_speaker t'.
Proof.
  unfold type_is_speaker. intros Hstep Ht.
  destruct Hstep as [x _ Hx|front l l' -> Hs Hty _].
  - apply Forall_app. split; [done|]. by constructor.
  - apply Forall_app in Ht as [Hfront Hl].
    apply Forall_app. split; [done|]. constructor; [|done].
    apply Forall_cons in Hl as [Hl _]. congruence.
Qed.

Lemma transcript_step_neighbours t t' :
  transcript_step t t' → type_is_speaker t →
  no_adjacent_partials t → no_adjacent_partials t'.
Proof.
  intros Hstep Hty Ht.
  destruct Hstep as [x Hnew Hx|front l l' -> Hs Hty' Hp].
  - apply no_adjacent_partials_snoc; [done|].
    intros l Hl (Hpl & Hpx & Hsp). apply (Hnew Hpx l Hl). split; [done|].
    assert (Entry.type l = Entry.speaker l).
    { unfold type_is_speaker in Hty. rewrite Forall_forall in Hty.
      apply Hty. apply last_Some in Hl as [front ->]. set_solver. }
    congruence.
  - apply no_adjacent_partials_snoc.
    + by apply no_adjacent_partials_front in Ht.
    + intros k Hk (Hpk & Hpl' & Hsp).
      apply last_Some in Hk as [front' ->].
      apply (Ht (length front') k l).
      * rewrite <- app_assoc. simpl. by apply list_lookup_middle.
      * rewrite lookup_app_r; rewrite length_app; simpl; [|lia].
        by replace (S (length front') - (length front' + 1)) with 0 by lia.
      * destruct Hp as [Hp|Hp]; [|congruence].
        repeat split; congruence.
Qed.

End Neighbours.

Lemma well_formed_initial : well_formed initial.
Proof. split; [constructor|apply no_adjacent_partials_nil]. Qed.

Lemma ingest_transcript env event s :
  transcript (ingest env event s) = transcript s ∨
  transcript_step (transcript s) (transcript (ingest env event s)).
Proof.
  pose proof (ingest_outcomeP env event s) as H.
  remember (ingest env event s) as s' eqn:Hs'.
  destruct H as [_|u _ Hu]; [by left|right].
  simpl. by eapply is_updater_step.
Qed.

Lemma well_formed_ingest env event s :
  well_formed s → well_formed (ingest env event s).
Proof.
  intros [Hty Hn]. unfold well_formed.
  destruct (ingest_transcript env event s) as [->|Hstep]; [done|].
  split.
  - by eapply transcript_step_type.
  - by eapply transcript_step_neighbours.
Qed.

Lemma well_formed_processEvents env events s :
  well_formed s → well_formed (processEvents env events s).
Proof.
  intros Hs. destruct events as [[|event rest]|]; simpl.
  - apply well_formed_initial.
  - by apply well_formed_ingest.
  - apply well_formed_initial.
Qed.

Lemma well_formed_run obs s : well_formed s → well_formed (run obs s).
Proof.
  revert s. induction obs as [|[env events] rest IH]; intros s Hs; simpl; [done|].
  apply IH. by apply well_formed_processEvents.
Qed.

(** ** Idempotence *)

Lemma ingest_twice env env' event s :
  ingest env' event (ingest env event s) = ingest env event s.
Proof.
  pose proof (ingest_outcomeP env event s) as H.
  remember (ingest env event s) as s' eqn:Hs'.
  destruct H as [Hsame|u _ _].
  - apply Hsame.
  - unfold ingest. rewrite bool_decide_eq_true_2; [done|]. simpl. set_solver.
Qed.

(** C1: for an event that carries an [event_id], ingesting it a second
    time changes neither the transcript nor the set of processed ids:
    the state after two calls is the state after one. *)
Theorem ingest_idempotent env env' event s i :
  Event.event_id event = Some i →
  ingest env' event (ingest env event s) = ingest env event s.
Proof. intros _. apply ingest_twice. Qed.

Lemma ingest_idempotent_witness :
  transcript (ingest env1 sample_delta (ingest env0 sample_delta initial))
    = [new_entry env0 sample_delta assistant "Hi" true] ∧
  ingest env1 sample_delta (ingest env0 sample_delta initial)
    = ingest env0 sample_delta initial.
Proof.
  split.
  - rewrite (ingest_idempotent env0 env1 sample_delta initial "evt_1"); reflexivity.
  - apply (ingest_idempotent env0 env1 sample_delta initial "evt_1"). reflexivity.
Defined.

(** ** Ignored events and empty payloads *)

(** C5 (as stated, refuted): an ignored event that carries an id leaves
    the transcript alone, but its id is not in the set of processed ids
    afterwards. *)
Lemma ignored_id_not_recorded :
  ignored sample_speech_started = true ∧
  Event.event_id sample_speech_started = Some "evt_7" ∧
  transcript (ingest env0 sample_speech_started initial) = [] ∧
  bool_decide (Some "evt_7" ∈ processedEventIds (ingest env0 sample_speech_started initial))
    = false.
Proof. repeat split; vm_compute; reflexivity. Qed.

(** C5 (amended): an event that is ignored, or whose extraction finds no
    truthy text, leaves the whole state as it was: the transcript is
    unchanged and so is the set of processed ids. *)
Theorem ignored_or_empty_unchanged env event s :
  ignored event = true ∨ payload event = None →
  ingest env event s = s.
Proof.
  unfold ignored, payload, ingest, dispatch. intros H.
  case_bool_decide; [done|].
  destruct (switch_case (Event.type event)) as [[]|];
    destruct H as [H|H]; try discriminate H; try rewrite H; done.
Qed.

Lemma ignored_or_empty_unchanged_witness :
  ingest env0 sample_speech_started initial = initial ∧
  ingest env0 (Event.with_id "evt_8" (Event.with_delta EmptyString (Event.bare "response.text.delta")))
         initial = initial.
Proof.
  split.
  - apply ignored_or_empty_unchanged. left. reflexivity.
  - apply ignored_or_empty_unchanged. right. reflexivity.
Defined.

(** ** Frame *)

(** C8: one ingest leaves the transcript as it was, or pushes exactly
    one entry, or rewrites only the last entry; in every case the entries
    before the last one of the prior transcript are kept as they were. *)
Theorem ingest_frame env event s :
  let prev := transcript s in
  let next := transcript (ingest env event s) in
  (next = prev ∨
   (∃ x, next = prev ++ [x]) ∨
   (∃ front l l', prev = front ++ [l] ∧ next = front ++ [l'])) ∧
  take (length prev - 1) next = take (length prev - 1) prev.
Proof.
  simpl. destruct (ingest_transcript env event s) as [->|Hstep]; [by split; [left|]|].
  destruct Hstep as [x _ _|front l l' Hprev _ _ _].
  - split; [right; left; by exists x|].
    rewrite take_app_le by lia. done.
  - rewrite Hprev. split; [right; right; by exists front, l, l'|].
    rewrite length_app. simpl.
    replace (length front + 1 - 1) with (length front) by lia.
    by rewrite !take_app_length.
Qed.

Lemma ingest_fresh env event s :
  Event.event_id event ∉ processedEventIds s →
  ingest env event s = dispatch env event s.
Proof. intros H. unfold ingest. by rewrite bool_decide_eq_false_2. Qed.

Lemma ingest_seen env event s :
  Event.event_id event ∈ processedEventIds s → ingest env event s = s.
Proof. intros H. unfold ingest. by rewrite bool_decide_eq_true_2. Qed.

Lemma in_two (x a b : string) : x ∈ [a; b] → x = a ∨ x = b.
Proof.
  intros H. apply elem_of_cons in H as [H|H]; [by left|].
  apply elem_of_cons in H as [H|H]; [by right|].
  by apply elem_of_nil in H.
Qed.

(** ** Scenarios *)

(** C4: from the initial state, two assistant audio deltas ["Hi"] and
    [" there"], the typed user message ["Hello!"] and the assistant audio
    done event ["Hi there, how can I help?"], under distinct event ids,
    leave three entries in this order: the assistant entry ["Hi there"]
    still partial, the final user entry, and a new final assistant
    entry. *)
Theorem end_to_end_scenario (ty1 ty2 ty4 i1 i2 i3 i4 : string) (n1 n2 n3 n4 : Env) :
  ty1 ∈ assistant_audio_delta_types →
  ty2 ∈ assistant_audio_delta_types →
  ty4 ∈ assistant_audio_done_types →
  NoDup [i1; i2; i3; i4] →
  let e1 := delta_event ty1 i1 "Hi" in
  let e2 := delta_event ty2 i2 " there" in
  let e3 := user_text_event i3 "Hello!" in
  let e4 := transcript_event ty4 i4 "Hi there, how can I help?" in
  transcript (ingest n4 e4 (ingest n3 e3 (ingest n2 e2 (ingest n1 e1 initial)))) =
    [ Entry.mk (entry_id n1 e1) assistant "Hi there" (new_Date n1) assistant (Some true);
      Entry.mk (entry_id n3 e3) user "Hello!" (new_Date n3) user None;
      Entry.mk (entry_id n4 e4) assistant "Hi there, how can I help?"
               (new_Date n4) assistant None ].
Proof.
  intros H1 H2 H4 Hids e1 e2 e3 e4.
  apply NoDup_cons in Hids as [Hi1 Hids].
  apply NoDup_cons in Hids as [Hi2 Hids].
  apply NoDup_cons in Hids as [Hi3 _].
  assert (S1 : ingest n1 e1 initial = dispatch n1 e1 initial).
  { apply ingest_fresh. apply not_elem_of_empty. }
  rewrite S1.
  apply in_two in H1 as [-> | ->]; apply in_two in H2 as [-> | ->];
    apply in_two in H4 as [-> | ->].
  all: rewrite (ingest_fresh n2 e2); [|fresh_id].
  all: rewrite (ingest_fresh n3 e3); [|fresh_id].
  all: rewrite (ingest_fresh n4 e4); [|fresh_id].
  all: reflexivity.
Qed.

Lemma end_to_end_scenario_witness :
  transcript
    (ingest env1 (transcript_event "response.audio_transcript.done" "evt_4"
                                   "Hi there, how can I help?")
       (ingest env0 (user_text_event "evt_3" "Hello!")
          (ingest env1 (delta_event "response.output_audio_transcript.delta" "evt_2" " there")
             (ingest env0 (delta_event "response.audio_transcript.delta" "evt_1" "Hi")
                initial)))) =
    [ Entry.mk (IdOfEvent "evt_1") assistant "Hi there" 1000 assistant (Some true);
      Entry.mk (IdOfEvent "evt_3") user "Hello!" 1000 user None;
      Entry.mk (IdOfEvent "evt_4") assistant "Hi there, how can I help?"
               2000 assistant None ].
Proof.
  apply (end_to_end_scenario
           "response.audio_transcript.delta" "response.output_audio_transcript.delta"
           "response.audio_transcript.done" "evt_1" "evt_2" "evt_3" "evt_4"
           env0 env1 env0 env1).
  - apply (bool_decide_unpack _). vm_compute. exact I.
  - apply (bool_decide_unpack _). vm_compute. exact I.
  - apply (bool_decide_unpack _). vm_compute. exact I.
  - apply (bool_decide_unpack _). vm_compute. exact I.
Defined.

(** C7: from the initial state, the assistant audio deltas ["Hel"] and
    ["lo"] under distinct ids give exactly one partial assistant entry
    ["Hello"]; the assistant audio done event with transcript
    ["Hello there"] then leaves exactly one entry, the same one, with
    message ["Hello there"] and [isPartial: false]. *)
Theorem coalesce_then_finalize (ty1 ty2 ty3 i1 i2 i3 : string) (n1 n2 n3 : Env) :
  ty1 ∈ assistant_audio_delta_types →
  ty2 ∈ assistant_audio_delta_types →
  ty3 ∈ assistant_audio_done_types →
  NoDup [i1; i2; i3] →
  let e1 := delta_event ty1 i1 "Hel" in
  let e2 := delta_event ty2 i2 "lo" in
  let e3 := transcript_event ty3 i3 "Hello there" in
  let s2 := ingest n2 e2 (ingest n1 e1 initial) in
  transcript s2 =
    [ Entry.mk (entry_id n1 e1) assistant "Hello" (new_Date n1) assistant (Some true) ] ∧
  transcript (ingest n3 e3 s2) =
    [ Entry.mk (entry_id n1 e1) assistant "Hello there" (new_Date n1) assistant
               (Some false) ].
Proof.
  intros H1 H2 H3 Hids e1 e2 e3.
  apply NoDup_cons in Hids as [Hi1 Hids].
  apply NoDup_cons in Hids as [Hi2 _].
  assert (S1 : ingest n1 e1 initial = dispatch n1 e1 initial).
  { apply ingest_fresh. apply not_elem_of_empty. }
  rewrite S1.
  apply in_two in H1 as [-> | ->]; apply in_two in H2 as [-> | ->];
    apply in_two in H3 as [-> | ->].
  all: rewrite (ingest_fresh n2 e2); [|fresh_id].
  all: simpl; split; [reflexivity|].
  all: rewrite (ingest_fresh n3 e3); [|fresh_id].
  all: reflexivity.
Qed.

Lemma coalesce_then_finalize_witness :
  let s2 := ingest env1 (delta_event "response.audio_transcript.delta" "evt_2" "lo")
              (ingest env0 (delta_event "response.audio_transcript.delta" "evt_1" "Hel")
                 initial) in
  transcript s2 =
    [ Entry.mk (IdOfEvent "evt_1") assistant "Hello" 1000 assistant (Some true) ] ∧
  transcript
    (ingest env0 (transcript_event "response.output_audio_transcript.done" "evt_3"
                                   "Hello there") s2) =
    [ Entry.mk (IdOfEvent "evt_1") assistant "Hello there" 1000 assistant (Some false) ].
Proof.
  apply (coalesce_then_finalize
           "response.audio_transcript.delta" "response.audio_transcript.delta"
           "response.output_audio_transcript.done" "evt_1" "evt_2" "evt_3"
           env0 env1 env0).
  - apply (bool_decide_unpack _). vm_compute. exact I.
  - apply (bool_decide_unpack _). vm_compute. exact I.
  - apply (bool_decide_unpack _). vm_compute. exact I.
  - apply (bool_decide_unpack _). vm_compute. exact I.
Defined.

(** ** Events without an id *)

(** Once an event without an id has been processed, [undefined] is in
    the set, and every later event without an id is skipped. *)
Lemma idless_skipped env event s :
  Event.event_id event = None → None ∈ processedEventIds s →
  ingest env event s = s.
Proof. intros Hid Hin. apply ingest_seen. by rewrite Hid. Qed.

Lemma idless_recorded env event s x :
  Event.event_id event = None → payload event = Some x →
  None ∉ processedEventIds s →
  None ∈ processedEventIds (ingest env event s).
Proof.
  intros Hid Hp Hfresh. rewrite ingest_fresh by by rewrite Hid.
  unfold payload in Hp. unfold dispatch.
  destruct (switch_case (Event.type event)) as [[]|];
    try discriminate Hp; rewrite Hp; simpl; rewrite Hid;
    apply elem_of_union_l; by apply elem_of_singleton.
Qed.

(** C3 (the code at the failing input): after the id-less delta ["a"]
    has been processed from the initial state, the id-less delta ["b"]
    is skipped by the duplicate check: the state does not change,
    although the switch alone would have grown the entry to ["ab"]. *)
Theorem idless_event_skipped_after_idless :
  let s1 := ingest env0 (idless_delta "a") initial in
  Event.event_id (idless_delta "b") = None ∧
  transcript s1 =
    [ Entry.mk (IdGenerated (3 # 2)) assistant "a" 1000 assistant (Some true) ] ∧
  ingest env1 (idless_delta "b") s1 = s1 ∧
  transcript (dispatch env1 (idless_delta "b") s1) =
    [ Entry.mk (IdGenerated (3 # 2)) assistant "ab" 1000 assistant (Some true) ].
Proof.
  cbv zeta. split; [reflexivity|]. split; [reflexivity|]. split; [|reflexivity].
  apply idless_skipped; [reflexivity|].
  apply (idless_recorded env0 (idless_delta "a") initial "a");
    [reflexivity|reflexivity|apply not_elem_of_empty].
Qed.

(** ** The invariant on neighbouring partial entries *)

(** C9: after any sequence of runs of the effect from the initial state,
    no two neighbouring entries are both partial with the same speaker;
    and whenever an ingest then pushes a new partial entry, the entry that
    was last before is not a partial entry of that speaker. *)
Theorem no_adjacent_same_speaker_partials (obs : list (Env * option (list Event.t))) :
  let s := run obs initial in
  no_adjacent_partials (transcript s) ∧
  (∀ env event x,
     transcript (ingest env event s) = transcript s ++ [x] →
     Entry.isPartial x = Some true →
     ∀ l, last (transcript s) = Some l →
          ¬ (Entry.isPartial l = Some true ∧ Entry.speaker l = Entry.speaker x)).
Proof.
  cbv zeta. destruct (well_formed_run obs initial well_formed_initial) as [Hty Hn].
  split; [done|].
  intros env event x Hpush Hpx l Hl [Hpl Hsp].
  destruct (ingest_transcript env event (run obs initial)) as [Hsame|Hstep].
  - rewrite Hsame in Hpush. apply (f_equal length) in Hpush.
    rewrite length_app in Hpush. simpl in Hpush. lia.
  - rewrite Hpush in Hstep.
    remember (transcript (run obs initial) ++ [x]) as next eqn:Hnext.
    destruct Hstep as [x' Hnew Hx'|front l0 l' Hprev _ _ _].
    + apply app_inj_tail in Hnext as [_ ->].
      apply (Hnew Hpx l Hl). split; [done|].
      assert (Entry.type l = Entry.speaker l).
      { unfold type_is_speaker in Hty. rewrite Forall_forall in Hty.
        apply Hty. apply last_Some in Hl as [front ->].
        apply elem_of_app. right. apply elem_of_cons. by left. }
      congruence.
    + rewrite Hprev in Hnext. apply (f_equal length) in Hnext.
      rewrite !length_app in Hnext. simpl in Hnext. lia.
Qed.

Lemma no_adjacent_same_speaker_partials_witness :
  let s := run [(env0, Some [delta_event "response.text.delta" "evt_1" "Hi"])] initial in
  let l := Entry.mk (IdOfEvent "evt_1") assistant "Hi" 1000 assistant (Some true) in
  let x := Entry.mk (IdOfEvent "evt_2") user "Hello" 2000 user (Some true) in
  (no_adjacent_partials (transcript s) ∧ transcript s = [l]) ∧
  (Entry.isPartial l = Some true ∧ Entry.speaker l = Entry.speaker x → False).
Proof.
  cbv zeta.
  destruct (no_adjacent_same_speaker_partials
              [(env0, Some [delta_event "response.text.delta" "evt_1" "Hi"])])
    as [Hn Hnew].
  split; [split; [exact Hn|reflexivity]|].
  apply (Hnew env1
           (delta_event "conversation.item.input_audio_transcription.delta" "evt_2" "Hello")).
  - vm_compute. reflexivity.
  - reflexivity.
  - reflexivity.
Defined.

(** ** Assistant audio deltas under their two names *)

Lemma when_truthy_js_or (a b : jsval) :
  when_truthy (js_or a b) =
  match when_truthy a with
  | Some d => Some d
  | None => when_truthy b
  end.
Proof.
  unfold js_or, truthy. destruct a as [x|]; simpl; [|done].
  destruct (String.eqb x EmptyString) eqn:E; simpl; [done|]. by rewrite E.
Qed.

(** C6 (as stated, refuted): an event of type
    [response.audio_transcript.delta] that carries only [text] adds
    nothing to the transcript; the state is left as it was. *)
Lemma text_only_audio_transcript_delta_dropped :
  let e := text_event "response.audio_transcript.delta" "evt_1" "Hi" in
  Event.delta e = None ∧ Event.text e = Some "Hi" ∧
  transcript (ingest env0 e initial) = [] ∧
  ingest env0 e initial = initial.
Proof. cbv zeta. repeat split; vm_compute; reflexivity. Qed.

(** C6 (amended): for an event not yet processed, under
    [response.output_audio_transcript.delta] the fragment is [delta] when
    it is a non-empty string and [text] otherwise; under
    [response.audio_transcript.delta] the fragment is [delta] alone.  A
    non-empty fragment goes through the delta updater for the assistant;
    without one the transcript is unchanged. *)
Theorem assistant_audio_delta_fragment env event s :
  Event.event_id event ∉ processedEventIds s →
  (Event.type event = "response.output_audio_transcript.delta" →
   transcript (ingest env event s) =
     match when_truthy (Event.delta event), when_truthy (Event.text event) with
     | Some d, _ => delta_updater env event assistant d (transcript s)
     | None, Some x => delta_updater env event assistant x (transcript s)
     | None, None => transcript s
     end) ∧
  (Event.type event = "response.audio_transcript.delta" →
   transcript (ingest env event s) =
     match when_truthy (Event.delta event) with
     | Some d => delta_updater env event assistant d (transcript s)
     | None => transcript s
     end).
Proof.
  intros Hfresh. rewrite (ingest_fresh _ _ _ Hfresh). unfold dispatch.
  split; intros ->; simpl.
  - rewrite when_truthy_js_or.
    destruct (when_truthy (Event.delta event)); [done|].
    by destruct (when_truthy (Event.text event)).
  - by destruct (when_truthy (Event.delta event)).
Qed.

Lemma assistant_audio_delta_fragment_witness :
  transcript (ingest env0 (text_event "response.output_audio_transcript.delta" "evt_1" "Hi")
                     initial) =
    [ Entry.mk (IdOfEvent "evt_1") assistant "Hi" 1000 assistant (Some true) ] ∧
  transcript (ingest env0 (text_event "response.audio_transcript.delta" "evt_1" "Hi")
                     initial) = [].
Proof.
  split.
  - apply (proj1 (assistant_audio_delta_fragment env0
             (text_event "response.output_audio_transcript.delta" "evt_1" "Hi") initial
             (not_elem_of_empty _)) eq_refl).
  - apply (proj2 (assistant_audio_delta_fragment env0
             (text_event "response.audio_transcript.delta" "evt_1" "Hi") initial
             (not_elem_of_empty _)) eq_refl).
Defined.

(** ** Final user audio transcription *)

(** C2 (as stated, refuted): with a partial assistant entry last, the
    event [input_audio_buffer.transcription.completed] does not rewrite
    that entry; it pushes a new user entry after it. *)
Lemma user_completed_after_assistant_partial :
  let e := transcript_event "input_audio_buffer.transcription.completed" "evt_2" "Hello" in
  let l := Entry.mk (IdOfEvent "evt_1") assistant "Hi" 1000 assistant (Some true) in
  last (transcript after_assistant_partial) = Some l ∧
  Entry.isPartial l = Some true ∧
  transcript (ingest env1 e after_assistant_partial) =
    [ l; Entry.mk (IdOfEvent "evt_2") user "Hello" 2000 user None ] ∧
  transcript (ingest env1 e after_assistant_partial) ≠
    slice_0_m1 (transcript after_assistant_partial) ++ [Entry.finalize "Hello" l].
Proof.
  cbv zeta. split; [reflexivity|]. split; [reflexivity|].
  split; [vm_compute; reflexivity|]. vm_compute. intros H. discriminate H.
Qed.

(** What [conversation.item.input_audio_transcription.completed] does
    with a partial user entry last: the entry stays partial and a second
    user entry is pushed. *)
Lemma item_completed_after_user_partial :
  transcript
    (ingest env1
       (transcript_event "conversation.item.input_audio_transcription.completed"
                         "evt_2" "Hello")
       after_user_partial) =
    [ Entry.mk (IdOfEvent "evt_1") user "Hel" 1000 user (Some true);
      Entry.mk (IdOfEvent "evt_2") user "Hello" 2000 user None ].
Proof. vm_compute. reflexivity. Qed.

(** C2 (amended): for an event not yet processed whose [transcript] is a
    non-empty string: [input_audio_buffer.transcription.completed]
    rewrites a last entry that is partial and of type user, giving it the
    final text and [isPartial: false]; and under either raw type, when
    the last entry is not a partial entry of type user (or there is
    none), a new final user entry with the final text is pushed. *)
Theorem user_audio_completed env event s text :
  Event.event_id event ∉ processedEventIds s →
  when_truthy (Event.transcript event) = Some text →
  (Event.type event = "input_audio_buffer.transcription.completed" →
   ∀ l, last (transcript s) = Some l →
        Entry.type l = user → Entry.isPartial l = Some true →
        transcript (ingest env event s) =
          slice_0_m1 (transcript s) ++ [Entry.finalize text l]) ∧
  (Event.type event ∈ user_audio_completed_types →
   (∀ l, last (transcript s) = Some l →
         ¬ (Entry.type l = user ∧ Entry.isPartial l = Some true)) →
   transcript (ingest env event s) =
     transcript s ++ [new_entry env event user text false]).
Proof.
  intros Hfresh Htext. rewrite (ingest_fresh _ _ _ Hfresh). unfold dispatch. split.
  - intros -> l Hl Hty Hp. simpl. rewrite Htext. simpl.
    unfold user_completed_updater. rewrite Hl.
    apply partial_true in Hp. rewrite Hp, bool_decide_eq_true_2; done.
  - intros Hin Hlast. apply in_two in Hin as [-> | ->]; simpl; rewrite Htext; simpl.
    + done.
    + unfold user_completed_updater. destruct (last (transcript s)) as [l|] eqn:Hl; [|done].
      destruct (bool_decide (Entry.type l = user) && Entry.partial l) eqn:Hc; [|done].
      apply andb_true_iff in Hc as [Hty Hp]. exfalso. apply (Hlast l eq_refl).
      split; [by apply bool_decide_eq_true in Hty|by apply partial_true].
Qed.

Lemma user_audio_completed_witness :
  let e := transcript_event "input_audio_buffer.transcription.completed" "evt_2" "Hello" in
  transcript (ingest env1 e after_user_partial) =
    [ Entry.mk (IdOfEvent "evt_1") user "Hello" 1000 user (Some false) ] ∧
  transcript (ingest env1 e initial) =
    [ Entry.mk (IdOfEvent "evt_2") user "Hello" 2000 user None ].
Proof.
  cbv zeta. split.
  - apply (proj1 (user_audio_completed env1
             (transcript_event "input_audio_buffer.transcription.completed" "evt_2" "Hello")
             after_user_partial "Hello"
             ltac:(apply (bool_decide_unpack _); vm_compute; exact I) eq_refl)
             eq_refl
             (Entry.mk (IdOfEvent "evt_1") user "Hel" 1000 user (Some true))
             eq_refl eq_refl eq_refl).
  - apply (proj2 (user_audio_completed env1
             (transcript_event "input_audio_buffer.transcription.completed" "evt_2" "Hello")
             initial "Hello" (not_elem_of_empty _) eq_refl)).
    + apply (bool_decide_unpack _). vm_compute. exact I.
    + intros l Hl. discriminate Hl.
Defined.

(** ** Assistant done events on a partial user entry *)

(** C10: when the last entry is a partial entry of speaker user, an
    assistant done event of any of the four raw types, not yet processed
    and with a non-empty final text, rewrites that entry: the message
    becomes the final text, [isPartial] becomes false, and the speaker
    stays user. *)
Theorem assistant_done_finalizes_user_partial env event s l text :
  Event.event_id event ∉ processedEventIds s →
  Event.type event ∈ assistant_done_types →
  payload event = Some text →
  last (transcript s) = Some l →
  Entry.isPartial l = Some true →
  Entry.speaker l = user →
  ∃ l',
    transcript (ingest env event s) = slice_0_m1 (transcript s) ++ [l'] ∧
    l' = Entry.finalize text l ∧
    Entry.message l' = text ∧
    Entry.isPartial l' = Some false ∧
    Entry.speaker l' = user ∧
    Entry.id l' = Entry.id l ∧
    Entry.timestamp l' = Entry.timestamp l.
Proof.
  intros Hfresh Hty Hp Hl Hpart Hsp.
  exists (Entry.finalize text l). split; [|by repeat split].
  rewrite (ingest_fresh _ _ _ Hfresh). unfold dispatch. unfold payload in Hp.
  apply partial_true in Hpart.
  repeat (apply elem_of_cons in Hty as [Hty|Hty];
          [rewrite Hty in Hp |- *; simpl in Hp |- *; rewrite Hp; simpl;
           unfold done_updater; by rewrite Hl, Hpart|]).
  by apply elem_of_nil in Hty.
Qed.

Lemma assistant_done_finalizes_user_partial_witness :
  transcript
    (ingest env1 (text_event "response.output_text.done" "evt_2" "How can I help?")
            after_user_partial) =
    [ Entry.mk (IdOfEvent "evt_1") user "How can I help?" 1000 user (Some false) ].
Proof.
  destruct (assistant_done_finalizes_user_partial env1
              (text_event "response.output_text.done" "evt_2" "How can I help?")
              after_user_partial
              (Entry.mk (IdOfEvent "evt_1") user "Hel" 1000 user (Some true))
              "How can I help?"
              ltac:(apply (bool_decide_unpack _); vm_compute; exact I)
              ltac:(apply (bool_decide_unpack _); vm_compute; exact I)
              eq_refl eq_refl eq_refl eq_refl) as (l' & Ht & -> & _).
  exact Ht.
Defined.

(** * Further properties of the component *)

(** ** The switch as a table *)

Lemma when_truthy_nonempty (v : jsval) (x : string) :
  when_truthy v = Some x → x ≠ EmptyString.
Proof.
  unfold when_truthy. destruct v as [s|]; [|done].
  destruct (String.eqb s EmptyString) eqn:E; [done|].
  intros [= <-] ->. by rewrite String.eqb_refl in E.
Qed.

Lemma content_field_nonempty event kind' field (x : string) :
  content_field event kind' field = Some x → x ≠ EmptyString.
Proof.
  unfold content_field. destruct (user_message_content event) as [c|]; [|done].
  destruct (js_is (Content.type c) kind'); [|done]. apply when_truthy_nonempty.
Qed.

Lemma payload_nonempty event (x : string) :
  payload event = Some x → x ≠ EmptyString.
Proof.
  unfold payload. destruct (switch_case (Event.type event)) as [[]|]; try done;
    eauto using when_truthy_nonempty, content_field_nonempty.
Qed.

Lemma payload_kind event (x : string) :
  payload event = Some x → is_Some (kind event).
Proof.
  unfold payload, kind. destruct (switch_case (Event.type event)) as [[]|];
    simpl; try done; eauto.
Qed.

Lemma dispatch_kind_payload env event s :
  dispatch env event s =
  match kind event, payload event with
  | Some k, Some x => update_and_record (apply_kind env event k x) event s
  | _, _ => s
  end.
Proof.
  unfold dispatch, kind, payload.
  destruct (switch_case (Event.type event)) as [[]|]; simpl; try done;
    match goal with
    | |- push_branch _ _ ?t _ = _ => by destruct t
    | |- update_branch _ ?t _ _ = _ => by destruct t
    end.
Qed.

(** X1: the effect on the newest event is a table lookup.  An event has
    at most one kind and one extracted text; unless its id is already in
    the set, [ingest] applies the updater of the kind to the text and
    records the id, and it does nothing when kind or text is missing. *)
Theorem ingest_by_kind env event s :
  ingest env event s =
  if bool_decide (Event.event_id event ∈ processedEventIds s) then s
  else match kind event, payload event with
       | Some k, Some x => update_and_record (apply_kind env event k x) event s
       | _, _ => s
       end.
Proof. unfold ingest. by rewrite dispatch_kind_payload. Qed.

Lemma apply_kind_step env event k (x : string) prev :
  x ≠ EmptyString → entry_step env event prev (apply_kind env event k x prev).
Proof.
  intros Hx. destruct k as [|who| |]; simpl.
  - by apply es_push.
  - unfold delta_updater. destruct (last prev) as [l|] eqn:Hl; [|by apply es_push].
    destruct (bool_decide (Entry.type l = who) && Entry.partial l) eqn:Hc;
      [|by apply es_push].
    apply andb_true_iff in Hc as [_ Hp].
    apply last_Some in Hl as [front ->]. rewrite slice_snoc. by eapply es_grow.
  - unfold user_completed_updater.
    destruct (last prev) as [l|] eqn:Hl; [|by apply es_push].
    destruct (bool_decide (Entry.type l = user) && Entry.partial l) eqn:Hc;
      [|by apply es_push].
    apply andb_true_iff in Hc as [_ Hp].
    apply last_Some in Hl as [front ->]. rewrite slice_snoc. by eapply es_finalize.
  - unfold done_updater. destruct (last prev) as [l|] eqn:Hl; [|by apply es_push].
    destruct (Entry.partial l) eqn:Hp; [|by apply es_push].
    apply last_Some in Hl as [front ->]. rewrite slice_snoc. by eapply es_finalize.
Qed.

(** One ingest, seen from outside: nothing, or one entry step together
    with the id going into the set. *)
Lemma ingest_step env event s :
  ingest env event s = s ∨
  ((Event.event_id event ∉ processedEventIds s) ∧
   processedEventIds (ingest env event s) =
     {[ Event.event_id event ]} ∪ processedEventIds s ∧
   entry_step env event (transcript s) (transcript (ingest env event s))).
Proof.
  unfold ingest. case_bool_decide as Hseen; [by left|].
  rewrite dispatch_kind_payload.
  destruct (kind event) as [k|]; [|by left].
  destruct (payload event) as [x|] eqn:Hp; [|by left].
  right. repeat split; [done|]. simpl.
  apply apply_kind_step. by eapply payload_nonempty.
Qed.

Lemma ingest_processed env event s (x : string) :
  Event.event_id event ∉ processedEventIds s → payload event = Some x →
  ∃ k, kind event = Some k ∧
       ingest env event s = update_and_record (apply_kind env event k x) event s.
Proof.
  intros Hfresh Hp. destruct (payload_kind _ _ Hp) as [k Hk]. exists k.
  split; [done|]. rewrite ingest_fresh by done.
  by rewrite dispatch_kind_payload, Hk, Hp.
Qed.

Lemma ingest_ledger_mono env event s :
  processedEventIds s ⊆ processedEventIds (ingest env event s).
Proof.
  destruct (ingest_step env event s) as [->|(_ & -> & _)]; [done|].
  apply union_subseteq_r.
Qed.

(** ** When an ingest does nothing *)

Lemma ingest_no_payload env event s :
  payload event = None → ingest env event s = s.
Proof.
  intros Hnone. unfold ingest. case_bool_decide; [done|].
  rewrite dispatch_kind_payload, Hnone. by destruct (kind event).
Qed.

(** X2: an ingest leaves the state as it was exactly when the event's id
    is already in [processedEventIds] or no truthy text is extracted from
    the event; in every other case the id is new in the set afterwards. *)
Theorem ingest_unchanged_iff env event s :
  ingest env event s = s ↔
  Event.event_id event ∈ processedEventIds s ∨ payload event = None.
Proof.
  split.
  - intros Hsame.
    destruct (decide (Event.event_id event ∈ processedEventIds s)) as [|Hfresh];
      [by left|right].
    destruct (payload event) as [x|] eqn:Hp; [exfalso|done].
    destruct (ingest_processed env event s x Hfresh Hp) as (k & _ & Hin).
    rewrite Hin in Hsame. apply (f_equal processedEventIds) in Hsame.
    simpl in Hsame. apply Hfresh. rewrite <- Hsame.
    apply elem_of_union_l. by apply elem_of_singleton.
  - intros [Hseen|Hnone]; [by apply ingest_seen|by apply ingest_no_payload].
Qed.

(** ** Sequences of ingests and of actions *)

Lemma perform_ledger_mono a s :
  resets a = false → processedEventIds s ⊆ processedEventIds (perform a s).
Proof.
  destruct a as [env [[|event rest]|]|[]]; simpl; try done; intros _.
  apply ingest_ledger_mono.
Qed.

Lemma perform_all_ledger_mono acts s :
  Forall (λ a, resets a = false) acts →
  processedEventIds s ⊆ processedEventIds (perform_all acts s).
Proof.
  revert s. induction acts as [|a rest IH]; intros s Hacts; simpl; [done|].
  apply Forall_cons in Hacts as [Ha Hrest].
  etrans; [by apply perform_ledger_mono|by apply IH].
Qed.

(** X3: an event that has been ingested once is skipped whenever it
    shows up again as the newest event, whatever was ingested and whether
    the transcript was cleared in between, as long as the log was never
    seen empty: the redelivery changes nothing. *)
Theorem redelivery_is_noop env env' event rest acts s :
  Forall (λ a, resets a = false) acts →
  let s' := perform_all acts (ingest env event s) in
  perform (EventsChanged env' (Some (event :: rest))) s' = s'.
Proof.
  intros Hacts. cbv zeta. simpl.
  destruct (payload event) as [x|] eqn:Hp.
  - apply ingest_seen.
    apply (perform_all_ledger_mono acts (ingest env event s) Hacts).
    destruct (decide (Event.event_id event ∈ processedEventIds s)) as [Hseen|Hfresh].
    + by rewrite ingest_seen.
    + destruct (ingest_processed env event s x Hfresh Hp) as (k & _ & ->). simpl.
      apply elem_of_union_l. by apply elem_of_singleton.
  - by apply ingest_no_payload.
Qed.

Lemma redelivery_is_noop_witness :
  let s' := perform_all
              [ClearClicked true;
               EventsChanged env1 (Some [delta_event "response.text.delta" "evt_2" "Ho"])]
              (ingest env0 sample_delta initial) in
  perform (EventsChanged env1 (Some [sample_delta])) s' = s' ∧
  transcript s' =
    [ Entry.mk (IdOfEvent "evt_2") assistant "Ho" 2000 assistant (Some true) ].
Proof.
  cbv zeta. split; [|vm_compute; reflexivity].
  apply (redelivery_is_noop env0 env1 sample_delta []
           [ClearClicked true;
            EventsChanged env1 (Some [delta_event "response.text.delta" "evt_2" "Ho"])]
           initial).
  repeat constructor.
Defined.

(** ** What an ingest keeps *)

Section EntrySteps.

Context (env : Env) (event : Event.t).
Implicit Types (prev next : list Entry.t) (x : Entry.t).

Lemma entry_step_length prev next :
  entry_step env event prev next →
  (length prev ≤ length next)%nat ∧ (length next ≤ S (length prev))%nat.
Proof.
  intros [who y p _|front l d -> _ _|front l y -> _ _];
    rewrite !length_app; simpl; lia.
Qed.

Lemma entry_step_settled prev next i x :
  entry_step env event prev next →
  prev !! i = Some x →
  Entry.partial x = false ∨ S i < length prev →
  next !! i = Some x.
Proof.
  intros Hstep Hx Hsettled.
  assert (Hlast : ∀ front l, prev = front ++ [l] → Entry.partial l = true →
                             front !! i = Some x).
  { intros front l -> Hp. rewrite length_app in Hsettled. simpl in Hsettled.
    destruct (decide (i < length front)) as [Hi|Hi].
    - by rewrite lookup_app_l in Hx.
    - apply lookup_lt_Some in Hx as Hlt. rewrite length_app in Hlt. simpl in Hlt.
      assert (i = length front) as -> by lia.
      rewrite list_lookup_middle in Hx by done.
      destruct Hsettled as [Hf|Hf]; [|lia]. congruence. }
  destruct Hstep as [who y p _|front l d Hprev Hp _|front l y Hprev Hp _].
  - by apply lookup_app_l_Some.
  - apply lookup_app_l_Some. by eapply Hlast.
  - apply lookup_app_l_Some. by eapply Hlast.
Qed.

Lemma entry_step_identity prev next i x :
  entry_step env event prev next →
  prev !! i = Some x →
  ∃ x', next !! i = Some x' ∧
        Entry.id x' = Entry.id x ∧ Entry.speaker x' = Entry.speaker x ∧
        Entry.type x' = Entry.type x ∧ Entry.timestamp x' = Entry.timestamp x.
Proof.
  intros Hstep Hx.
  assert (Hlast : ∀ front l l', prev = front ++ [l] →
            Entry.id l' = Entry.id l → Entry.speaker l' = Entry.speaker l →
            Entry.type l' = Entry.type l → Entry.timestamp l' = Entry.timestamp l →
            ∃ x', (front ++ [l']) !! i = Some x' ∧
                  Entry.id x' = Entry.id x ∧ Entry.speaker x' = Entry.speaker x ∧
                  Entry.type x' = Entry.type x ∧ Entry.timestamp x' = Entry.timestamp x).
  { intros front l l' -> H1 H2 H3 H4.
    destruct (decide (i < length front)) as [Hi|Hi].
    - rewrite lookup_app_l in Hx by done. exists x.
      by rewrite lookup_app_l by done.
    - apply lookup_lt_Some in Hx as Hlt. rewrite length_app in Hlt. simpl in Hlt.
      assert (i = length front) as -> by lia.
      rewrite list_lookup_middle in Hx by done. injection Hx as <-.
      exists l'. by rewrite list_lookup_middle by done. }
  destruct Hstep as [who y p _|front l d Hprev _ _|front l y Hprev _ _].
  - exists x. split; [by apply lookup_app_l_Some|done].
  - by eapply Hlast.
  - by eapply Hlast.
Qed.

End EntrySteps.

Lemma ingest_length env event s :
  (length (transcript s) ≤ length (transcript (ingest env event s)))%nat ∧
  (length (transcript (ingest env event s)) ≤ S (length (transcript s)))%nat.
Proof.
  destruct (ingest_step env event s) as [->|(_ & _ & Hstep)]; [lia|].
  by eapply entry_step_length.
Qed.

Lemma ingest_settled env event s i x :
  transcript s !! i = Some x →
  Entry.partial x = false ∨ S i < length (transcript s) →
  transcript (ingest env event s) !! i = Some x.
Proof.
  intros Hx Hsettled.
  destruct (ingest_step env event s) as [->|(_ & _ & Hstep)]; [done|].
  by eapply entry_step_settled.
Qed.

Lemma ingest_identity env event s i x :
  transcript s !! i = Some x →
  ∃ x', transcript (ingest env event s) !! i = Some x' ∧
        Entry.id x' = Entry.id x ∧ Entry.speaker x' = Entry.speaker x ∧
        Entry.type x' = Entry.type x ∧ Entry.timestamp x' = Entry.timestamp x.
Proof.
  intros Hx.
  destruct (ingest_step env event s) as [->|(_ & _ & Hstep)]; [by exists x|].
  by eapply entry_step_identity.
Qed.

(** X4: an entry that is final, or that is no longer the last one, is
    never changed again by any sequence of ingests: it stays at its index
    with every field as it was. *)
Theorem settled_entries_are_kept evs s i x :
  transcript s !! i = Some x →
  Entry.partial x = false ∨ S i < length (transcript s) →
  transcript (ingest_all evs s) !! i = Some x.
Proof.
  revert s. induction evs as [|[env event] rest IH]; intros s Hx Hsettled; simpl;
    [done|].
  apply IH.
  - by apply ingest_settled.
  - destruct Hsettled as [Hf|Hlt]; [by left|right].
    pose proof (ingest_length env event s). lia.
Qed.

Lemma settled_entries_are_kept_witness :
  transcript
    (ingest_all
       [(env1, transcript_event "response.audio_transcript.done" "evt_2" "Hi there");
        (env1, delta_event "response.text.delta" "evt_3" "More")]
       (ingest env0 (user_text_event "evt_1" "Hello!") initial)) !! 0 =
  Some (Entry.mk (IdOfEvent "evt_1") user "Hello!" 1000 user None).
Proof.
  apply (settled_entries_are_kept _ (ingest env0 (user_text_event "evt_1" "Hello!") initial)).
  - reflexivity.
  - left. reflexivity.
Defined.

(** X5: no sequence of ingests removes or moves an entry, and an entry
    keeps its id, speaker, type and timestamp for good; only its message
    and partial flag can change. *)
Theorem entries_keep_identity evs s i x :
  transcript s !! i = Some x →
  ∃ x', transcript (ingest_all evs s) !! i = Some x' ∧
        Entry.id x' = Entry.id x ∧ Entry.speaker x' = Entry.speaker x ∧
        Entry.type x' = Entry.type x ∧ Entry.timestamp x' = Entry.timestamp x.
Proof.
  revert s x. induction evs as [|[env event] rest IH]; intros s x Hx; simpl;
    [by exists x|].
  destruct (ingest_identity env event s i x Hx) as (y & Hy & E1 & E2 & E3 & E4).
  destruct (IH _ _ Hy) as (z & Hz & F1 & F2 & F3 & F4).
  exists z. repeat split; congruence.
Qed.

Lemma entries_keep_identity_witness :
  ∃ x', transcript
          (ingest_all
             [(env1, delta_event "response.text.delta" "evt_2" " there");
              (env1, text_event "response.text.done" "evt_3" "Hi there!")]
             (ingest env0 sample_delta initial)) !! 0 = Some x' ∧
        Entry.id x' = IdOfEvent "evt_1" ∧ Entry.speaker x' = assistant ∧
        Entry.type x' = assistant ∧ Entry.timestamp x' = 1000%Z.
Proof.
  apply (entries_keep_identity _ (ingest env0 sample_delta initial) 0
           (Entry.mk (IdOfEvent "evt_1") assistant "Hi" 1000 assistant (Some true))).
  reflexivity.
Defined.

(** X6: the transcript never gets shorter under ingests, and it grows by
    at most one entry for each event ingested. *)
Theorem transcript_length_bounds evs s :
  (length (transcript s) ≤ length (transcript (ingest_all evs s)))%nat ∧
  (length (transcript (ingest_all evs s)) ≤ length (transcript s) + length evs)%nat.
Proof.
  revert s. induction evs as [|[env event] rest IH]; intros s; simpl; [lia|].
  pose proof (ingest_length env event s). pose proof (IH (ingest env event s)). lia.
Qed.

(** ** Deltas and pushed entries, by raw type *)

Lemma kind_of_delta_type event who :
  Event.type event ∈ delta_types who → kind event = Some (Delta who).
Proof.
  unfold kind. destruct who; simpl; intros H;
    repeat (apply elem_of_cons in H as [->|H]; [reflexivity|]);
    by apply elem_of_nil in H.
Qed.

Lemma kind_of_push_type event :
  Event.type event ∈ push_types → kind event = Some PushUser.
Proof.
  unfold kind, push_types. intros H.
  repeat (apply elem_of_cons in H as [->|H]; [reflexivity|]).
  by apply elem_of_nil in H.
Qed.

Lemma ingest_of_kind env event s k (x : string) :
  Event.event_id event ∉ processedEventIds s →
  kind event = Some k → payload event = Some x →
  ingest env event s = update_and_record (apply_kind env event k x) event s.
Proof.
  intros Hfresh Hk Hp. rewrite ingest_fresh by done.
  by rewrite dispatch_kind_payload, Hk, Hp.
Qed.

Lemma delta_updater_grow env event who (d : string) front l :
  Entry.type l = who → Entry.isPartial l = Some true →
  delta_updater env event who d (front ++ [l]) = front ++ [Entry.grow d l].
Proof.
  intros Hty Hp. unfold delta_updater. rewrite last_snoc.
  apply partial_true in Hp. rewrite Hp, bool_decide_eq_true_2 by done. simpl.
  by rewrite slice_snoc.
Qed.

Lemma delta_updater_push env event who (d : string) prev :
  (∀ l, last prev = Some l →
        ¬ (Entry.type l = who ∧ Entry.isPartial l = Some true)) →
  delta_updater env event who d prev = prev ++ [new_entry env event who d true].
Proof.
  intros Hlast. unfold delta_updater. destruct (last prev) as [l|]; [|done].
  destruct (bool_decide (Entry.type l = who) && Entry.partial l) eqn:Hc; [|done].
  apply andb_true_iff in Hc as [Hty Hp]. exfalso. apply (Hlast l eq_refl).
  split; [by apply bool_decide_eq_true in Hty|by apply partial_true].
Qed.

(** X7: for a delta event of either speaker, under any of its raw types,
    not yet processed and with a non-empty fragment: when the last entry
    is a partial one of that speaker's type, the fragment is appended to
    its message and nothing else changes; otherwise, also when the last
    entry is a partial one of the other speaker, a new partial entry
    holding the fragment is pushed. *)
Theorem delta_event_semantics env event s who (d : string) :
  Event.event_id event ∉ processedEventIds s →
  Event.type event ∈ delta_types who →
  payload event = Some d →
  (∀ front l,
     transcript s = front ++ [l] →
     Entry.type l = who → Entry.isPartial l = Some true →
     transcript (ingest env event s) =
       front ++ [Entry.mk (Entry.id l) (Entry.speaker l) (Entry.message l +:+ d)
                          (Entry.timestamp l) (Entry.type l) (Some true)]) ∧
  ((∀ l, last (transcript s) = Some l →
         ¬ (Entry.type l = who ∧ Entry.isPartial l = Some true)) →
   transcript (ingest env event s) =
     transcript s ++ [Entry.mk (entry_id env event) who d (new_Date env) who (Some true)]).
Proof.
  intros Hfresh Hty Hp.
  rewrite (ingest_of_kind env event s (Delta who) d Hfresh
             (kind_of_delta_type _ _ Hty) Hp). simpl.
  split.
  - intros front l -> Hl Hpart. rewrite delta_updater_grow by done.
    unfold Entry.grow. by rewrite Hpart.
  - intros Hlast. by rewrite delta_updater_push.
Qed.

Lemma delta_event_semantics_witness :
  transcript
    (ingest env1
       (delta_event "input_audio_buffer.transcription.delta" "evt_2" "lo")
       after_user_partial) =
    [ Entry.mk (IdOfEvent "evt_1") user "Hello" 1000 user (Some true) ] ∧
  transcript
    (ingest env1
       (delta_event "input_audio_buffer.transcription.delta" "evt_2" "lo")
       after_assistant_partial) =
    [ Entry.mk (IdOfEvent "evt_1") assistant "Hi" 1000 assistant (Some true);
      Entry.mk (IdOfEvent "evt_2") user "lo" 2000 user (Some true) ].
Proof.
  split.
  - apply (proj1 (delta_event_semantics env1
             (delta_event "input_audio_buffer.transcription.delta" "evt_2" "lo")
             after_user_partial user "lo"
             ltac:(apply (bool_decide_unpack _); vm_compute; exact I)
             ltac:(apply (bool_decide_unpack _); vm_compute; exact I)
             eq_refl)
           [] (Entry.mk (IdOfEvent "evt_1") user "Hel" 1000 user (Some true))
           eq_refl eq_refl eq_refl).
  - apply (proj2 (delta_event_semantics env1
             (delta_event "input_audio_buffer.transcription.delta" "evt_2" "lo")
             after_assistant_partial user "lo"
             ltac:(apply (bool_decide_unpack _); vm_compute; exact I)
             ltac:(apply (bool_decide_unpack _); vm_compute; exact I)
             eq_refl)).
    intros l [= <-] [Hty _]. discriminate Hty.
Defined.

(** X8: the three branches that build [transcriptEntry] never merge: for
    an event of type [conversation.item.create],
    [conversation.item.input_audio_transcription.completed] or
    [conversation.item.added], not yet processed and with a non-empty
    text, a new user entry without partial flag is pushed after the
    prior transcript, which is kept as it was even when its last entry is
    partial. *)
Theorem push_event_semantics env event s (x : string) :
  Event.event_id event ∉ processedEventIds s →
  Event.type event ∈ push_types →
  payload event = Some x →
  transcript (ingest env event s) =
    transcript s ++ [Entry.mk (entry_id env event) user x (new_Date env) user None].
Proof.
  intros Hfresh Hty Hp.
  by rewrite (ingest_of_kind env event s PushUser x Hfresh (kind_of_push_type _ Hty) Hp).
Qed.

Lemma push_event_semantics_witness :
  transcript (ingest env1 (user_text_event "evt_2" "Hello!") after_assistant_partial) =
    [ Entry.mk (IdOfEvent "evt_1") assistant "Hi" 1000 assistant (Some true);
      Entry.mk (IdOfEvent "evt_2") user "Hello!" 2000 user None ].
Proof.
  apply (push_event_semantics env1 (user_text_event "evt_2" "Hello!")
           after_assistant_partial "Hello!").
  - apply (bool_decide_unpack _). vm_compute. exact I.
  - apply (bool_decide_unpack _). vm_compute. exact I.
  - reflexivity.
Defined.

Lemma kind_of_done_type event :
  Event.type event ∈ assistant_done_types → kind event = Some Done.
Proof.
  unfold kind, assistant_done_types. intros H.
  repeat (apply elem_of_cons in H as [->|H]; [reflexivity|]).
  by apply elem_of_nil in H.
Qed.

(** X9: for an assistant done event under any of its four raw types,
    not yet processed and with a non-empty final text: when the last
    entry is partial, whatever its speaker, it is rewritten in place
    with the final text and [isPartial: false], keeping its id, speaker,
    type and timestamp; when there is no last entry or it is not
    partial, a new assistant entry without partial flag is pushed. *)
Theorem done_event_semantics env event s (x : string) :
  Event.event_id event ∉ processedEventIds s →
  Event.type event ∈ assistant_done_types →
  payload event = Some x →
  (∀ front l,
     transcript s = front ++ [l] → Entry.isPartial l = Some true →
     transcript (ingest env event s) =
       front ++ [Entry.mk (Entry.id l) (Entry.speaker l) x
                          (Entry.timestamp l) (Entry.type l) (Some false)]) ∧
  ((∀ l, last (transcript s) = Some l → Entry.isPartial l ≠ Some true) →
   transcript (ingest env event s) =
     transcript s ++
     [Entry.mk (entry_id env event) assistant x (new_Date env) assistant None]).
Proof.
  intros Hfresh Hty Hp.
  rewrite (ingest_of_kind env event s Done x Hfresh (kind_of_done_type _ Hty) Hp).
  simpl. unfold done_updater. split.
  - intros front l -> Hpart. rewrite last_snoc.
    apply partial_true in Hpart. rewrite Hpart. by rewrite slice_snoc.
  - intros Hlast. destruct (last (transcript s)) as [l|]; [|done].
    destruct (Entry.partial l) eqn:Hpart; [|done].
    apply partial_true in Hpart. by destruct (Hlast l eq_refl).
Qed.

Lemma done_event_semantics_witness :
  transcript
    (ingest env1 (text_event "response.text.done" "evt_2" "Hi there!")
            after_assistant_partial) =
    [ Entry.mk (IdOfEvent "evt_1") assistant "Hi there!" 1000 assistant (Some false) ] ∧
  transcript (ingest env1 (text_event "response.text.done" "evt_2" "Hi there!") initial) =
    [ Entry.mk (IdOfEvent "evt_2") assistant "Hi there!" 2000 assistant None ].
Proof.
  split.
  - apply (proj1 (done_event_semantics env1
             (text_event "response.text.done" "evt_2" "Hi there!")
             after_assistant_partial "Hi there!"
             ltac:(apply (bool_decide_unpack _); vm_compute; exact I)
             ltac:(apply (bool_decide_unpack _); vm_compute; exact I)
             eq_refl)
           [] (Entry.mk (IdOfEvent "evt_1") assistant "Hi" 1000 assistant (Some true))
           eq_refl eq_refl).
  - apply (proj2 (done_event_semantics env1
             (text_event "response.text.done" "evt_2" "Hi there!")
             initial "Hi there!" (not_elem_of_empty _)
             ltac:(apply (bool_decide_unpack _); vm_compute; exact I)
             eq_refl)).
    intros l Hl. discriminate Hl.
Defined.

(** ** A run of deltas *)

Lemma string_app_assoc (a b c : string) : (a +:+ b) +:+ c = a +:+ (b +:+ c).
Proof. induction a as [|ch a IH]; [done|]. exact (f_equal (String ch) IH). Qed.

Lemma string_app_nil_r (a : string) : a +:+ EmptyString = a.
Proof. induction a as [|ch a IH]; [done|]. exact (f_equal (String ch) IH). Qed.

Lemma grow_nil l : Entry.grow EmptyString l = l.
Proof. destruct l. unfold Entry.grow. simpl. f_equal. apply string_app_nil_r. Qed.

Lemma grow_grow (d b : string) l :
  Entry.grow b (Entry.grow d l) = Entry.grow (d +:+ b) l.
Proof. unfold Entry.grow. simpl. f_equal. apply string_app_assoc. Qed.

Lemma delta_run_tail who s env event rest (u : list Entry.t → list Entry.t) :
  delta_run who s ((env, event) :: rest) →
  delta_run who (update_and_record u event s) rest.
Proof.
  intros [Hall Hnd]. apply Forall_cons in Hall as [_ Hall].
  simpl in Hnd. apply NoDup_cons in Hnd as [Hnotin Hnd].
  split; [|done]. rewrite Forall_forall in Hall. apply Forall_forall.
  intros ne Hne. destruct (Hall ne Hne) as (Hty & Hp & Hfresh).
  repeat split; [done..|]. simpl.
  apply not_elem_of_union. split; [|done].
  apply not_elem_of_singleton. intros Heq. apply Hnotin.
  rewrite <- Heq. apply list_elem_of_fmap. by exists ne.
Qed.

Lemma delta_run_grows who evs s front l :
  delta_run who s evs →
  transcript s = front ++ [l] →
  Entry.type l = who → Entry.isPartial l = Some true →
  transcript (ingest_all evs s) = front ++ [Entry.grow (burst_text evs) l].
Proof.
  revert s l. induction evs as [|[env event] rest IH]; intros s l Hrun Ht Hty Hp.
  { simpl. by rewrite grow_nil. }
  pose proof Hrun as [Hall _]. apply Forall_cons in Hall as [(Hin & [d Hd] & Hfresh) _].
  simpl in Hin, Hd, Hfresh. simpl.
  rewrite (ingest_of_kind env event s (Delta who) d Hfresh
             (kind_of_delta_type _ _ Hin) Hd).
  rewrite Hd. simpl.
  rewrite (IH _ (Entry.grow d l)).
  - by rewrite grow_grow.
  - by eapply delta_run_tail.
  - simpl. rewrite Ht. by apply delta_updater_grow.
  - done.
  - done.
Qed.

(** X10: a run of delta events of one speaker, each with a non-empty
    fragment, with ids that are pairwise distinct and not yet processed,
    arriving when the last entry is not a partial one of that speaker,
    adds exactly one entry: it carries the id and time of the first
    event and the fragments of all of them, in order, and is partial. *)
Theorem delta_run_coalesces who env event rest s :
  delta_run who s ((env, event) :: rest) →
  (∀ l, last (transcript s) = Some l →
        ¬ (Entry.type l = who ∧ Entry.isPartial l = Some true)) →
  transcript (ingest_all ((env, event) :: rest) s) =
    transcript s ++
    [Entry.mk (entry_id env event) who (burst_text ((env, event) :: rest))
              (new_Date env) who (Some true)].
Proof.
  intros Hrun Hlast.
  pose proof Hrun as [Hall _]. apply Forall_cons in Hall as [(Hin & [d Hd] & Hfresh) _].
  simpl in Hin, Hd, Hfresh. simpl.
  rewrite (ingest_of_kind env event s (Delta who) d Hfresh
             (kind_of_delta_type _ _ Hin) Hd).
  rewrite Hd. simpl.
  rewrite (delta_run_grows who rest _ (transcript s) (new_entry env event who d true)).
  - reflexivity.
  - by eapply delta_run_tail.
  - simpl. by apply delta_updater_push.
  - done.
  - done.
Qed.

Lemma delta_run_coalesces_witness :
  transcript
    (ingest_all
       [(env0, delta_event "response.text.delta" "evt_2" "How ");
        (env1, delta_event "response.output_text.delta" "evt_3" "are ");
        (env1, text_event "response.output_audio_transcript.delta" "evt_4" "you?")]
       after_user_partial) =
    [ Entry.mk (IdOfEvent "evt_1") user "Hel" 1000 user (Some true);
      Entry.mk (IdOfEvent "evt_2") assistant "How are you?" 1000 assistant (Some true) ].
Proof.
  apply (delta_run_coalesces assistant env0
           (delta_event "response.text.delta" "evt_2" "How ")
           [(env1, delta_event "response.output_text.delta" "evt_3" "are ");
            (env1, text_event "response.output_audio_transcript.delta" "evt_4" "you?")]
           after_user_partial).
  - split.
    + repeat (apply Forall_cons; split;
              [simpl; split; [apply (bool_decide_unpack _); vm_compute; exact I|];
               split; [by eexists|apply (bool_decide_unpack _); vm_compute; exact I]|]).
      constructor.
    + apply (bool_decide_unpack _). vm_compute. exact I.
  - intros l [= <-] [Hty _]. discriminate Hty.
Defined.

(** ** Reset and clear *)

(** X11: when the effect sees an absent or empty log, both the
    transcript and the set of processed ids are cleared; the next event,
    even one whose id had been processed before, is handled as the first
    of a new session: the transcript is the single entry it creates and
    the set holds its id alone. *)
Theorem reset_then_first_event env env' (empty_log : option (list Event.t))
    event rest s k (x : string) :
  empty_log = None ∨ empty_log = Some [] →
  kind event = Some k → payload event = Some x →
  let s' := processEvents env' (Some (event :: rest)) (processEvents env empty_log s) in
  transcript s' =
    [ Entry.mk (entry_id env' event) (kind_speaker k) x (new_Date env') (kind_speaker k)
               (if kind_partial k then Some true else None) ] ∧
  processedEventIds s' = {[ Event.event_id event ]}.
Proof.
  intros Hempty Hk Hp. cbv zeta.
  assert (processEvents env empty_log s = initial) as ->.
  { by destruct Hempty as [-> | ->]. }
  simpl.
  rewrite (ingest_of_kind env' event initial k x (not_elem_of_empty _) Hk Hp).
  simpl. split; [|by rewrite (right_id_L ∅ (∪))].
  by destruct k.
Qed.

Lemma reset_then_first_event_witness :
  let s := ingest env0 sample_delta initial in
  let s' := processEvents env1 (Some [sample_delta]) (processEvents env1 (Some []) s) in
  (bool_decide (Event.event_id sample_delta ∈ processedEventIds s) = true ∧
   ingest env1 sample_delta s = s) ∧
  transcript s' = [ Entry.mk (IdOfEvent "evt_1") assistant "Hi" 2000 assistant (Some true) ] ∧
  processedEventIds s' = {[ Some "evt_1" ]}.
Proof.
  cbv zeta. split.
  - split; vm_compute; reflexivity.
  - apply (reset_then_first_event env1 env1 (Some []) sample_delta []
             (ingest env0 sample_delta initial) (Delta assistant) "Hi").
    + by right.
    + reflexivity.
    + reflexivity.
Defined.

(** X12: a confirmed clear empties the transcript but keeps the set of
    processed ids, so events that were processed before the clear stay
    skipped when they are delivered again: the transcript stays empty. *)
Theorem clear_keeps_processed_ids evs s :
  Forall (λ ne, Event.event_id ne.2 ∈ processedEventIds s) evs →
  let s' := clearTranscript true s in
  transcript s' = [] ∧
  processedEventIds s' = processedEventIds s ∧
  ingest_all evs s' = s'.
Proof.
  intros Hall. cbv zeta. repeat split.
  induction evs as [|[env event] rest IH]; simpl; [done|].
  apply Forall_cons in Hall as [Hseen Hrest].
  rewrite ingest_seen by done. by apply IH.
Qed.

Lemma clear_keeps_processed_ids_witness :
  let s' := clearTranscript true (ingest env0 sample_delta initial) in
  transcript s' = [] ∧
  processedEventIds s' = processedEventIds (ingest env0 sample_delta initial) ∧
  ingest_all [(env1, sample_delta); (env0, sample_delta)] s' = s'.
Proof.
  apply (clear_keeps_processed_ids [(env1, sample_delta); (env0, sample_delta)]
           (ingest env0 sample_delta initial)).
  repeat (apply Forall_cons; split;
          [simpl; apply (bool_decide_unpack _); vm_compute; exact I|]).
  constructor.
Defined.

(** ** Invariants of the component *)

Lemma string_app_nonempty (a d : string) : d ≠ EmptyString → a +:+ d ≠ EmptyString.
Proof. intros Hd. by destruct a. Qed.

Lemma event_ids_snoc (t : list Entry.t) (x : Entry.t) :
  event_ids (t ++ [x]) =
  event_ids t ++ match Entry.id x with
                 | IdOfEvent i => [i]
                 | IdGenerated _ => []
                 end.
Proof. unfold event_ids. rewrite omap_app. simpl. by destruct (Entry.id x). Qed.

Lemma event_ids_rewrite (front : list Entry.t) (l l' : Entry.t) :
  Entry.id l' = Entry.id l → event_ids (front ++ [l']) = event_ids (front ++ [l]).
Proof. intros H. by rewrite !event_ids_snoc, H. Qed.

Lemma entry_id_of_event env event (i : string) :
  entry_id env event = IdOfEvent i → Event.event_id event = Some i.
Proof.
  unfold entry_id, when_truthy. destruct (Event.event_id event) as [j|]; [|done].
  destruct (String.eqb j EmptyString); [done|]. by intros [= ->].
Qed.

Lemma consistent_initial : consistent initial.
Proof.
  repeat split; try constructor. intros i Hi. by apply elem_of_nil in Hi.
Qed.

Lemma consistent_clear confirmed s : consistent s → consistent (clearTranscript confirmed s).
Proof.
  intros Hs. destruct confirmed; [|done]. simpl.
  repeat split; try constructor. intros i Hi. by apply elem_of_nil in Hi.
Qed.

Lemma consistent_ingest env event s : consistent s → consistent (ingest env event s).
Proof.
  intros (Hty & Hmsg & Hnd & Hrec).
  destruct (ingest_step env event s) as [->|(Hfresh & Hledger & Hstep)]; [done|].
  unfold consistent, ids_consistent. rewrite Hledger.
  unfold type_is_speaker, messages_nonempty in *.
  destruct Hstep as [who x p Hx|front l d Hprev Hp Hd|front l x Hprev Hp Hx].
  - split; [|split; [|split]].
    + apply Forall_app. split; [done|]. by repeat constructor.
    + apply Forall_app. split; [done|]. by repeat constructor.
    + rewrite event_ids_snoc. simpl.
      destruct (entry_id env event) as [i|q] eqn:Hid; [|by rewrite app_nil_r].
      apply NoDup_app. split; [done|]. split; [|apply NoDup_singleton].
      intros j Hj Hji. apply elem_of_cons in Hji as [->|Hji];
        [|by apply elem_of_nil in Hji].
      apply Hfresh. rewrite (entry_id_of_event _ _ _ Hid). by apply Hrec.
    + intros j. rewrite event_ids_snoc. simpl. intros Hj.
      apply elem_of_app in Hj as [Hj|Hj].
      * apply elem_of_union_r. by apply Hrec.
      * destruct (entry_id env event) as [i|q] eqn:Hid; [|by apply elem_of_nil in Hj].
        apply elem_of_cons in Hj as [->|Hj]; [|by apply elem_of_nil in Hj].
        apply elem_of_union_l. apply elem_of_singleton.
        by rewrite (entry_id_of_event _ _ _ Hid).
  - rewrite Hprev in *.
    apply Forall_app in Hty as [Hty1 Hty2]. apply Forall_cons in Hty2 as [Hty2 _].
    apply Forall_app in Hmsg as [Hmsg1 _].
    rewrite (event_ids_rewrite front l (Entry.grow d l)) by done.
    split; [|split; [|split]].
    + apply Forall_app. split; [done|]. by repeat constructor.
    + apply Forall_app. split; [done|]. repeat constructor. simpl.
      by apply string_app_nonempty.
    + done.
    + intros j Hj. apply elem_of_union_r. by apply Hrec.
  - rewrite Hprev in *.
    apply Forall_app in Hty as [Hty1 Hty2]. apply Forall_cons in Hty2 as [Hty2 _].
    apply Forall_app in Hmsg as [Hmsg1 _].
    rewrite (event_ids_rewrite front l (Entry.finalize x l)) by done.
    split; [|split; [|split]].
    + apply Forall_app. split; [done|]. by repeat constructor.
    + apply Forall_app. split; [done|]. by repeat constructor.
    + done.
    + intros j Hj. apply elem_of_union_r. by apply Hrec.
Qed.

Lemma consistent_perform a s : consistent s → consistent (perform a s).
Proof.
  intros Hs. destruct a as [env [[|event rest]|]|confirmed]; simpl.
  - apply consistent_initial.
  - by apply consistent_ingest.
  - apply consistent_initial.
  - by apply consistent_clear.
Qed.

Lemma consistent_perform_all acts s : consistent s → consistent (perform_all acts s).
Proof.
  revert s. induction acts as [|a rest IH]; intros s Hs; simpl; [done|].
  apply IH. by apply consistent_perform.
Qed.

(** X13: whatever the events, resets and clears since the component was
    mounted, no entry of the transcript has an empty message. *)
Theorem messages_never_empty acts :
  messages_nonempty (transcript (perform_all acts initial)).
Proof. apply (consistent_perform_all acts initial consistent_initial). Qed.

(** X14: whatever the events, resets and clears since the component was
    mounted, the entries whose id was taken from an event have pairwise
    distinct ids, and each of these ids is in [processedEventIds]. *)
Theorem event_ids_unique_and_recorded acts :
  let s := perform_all acts initial in
  NoDup (event_ids (transcript s)) ∧
  Forall (λ i, Some i ∈ processedEventIds s) (event_ids (transcript s)).
Proof.
  cbv zeta.
  destruct (consistent_perform_all acts initial consistent_initial) as (_ & _ & Hnd & Hrec).
  split; [done|]. by apply Forall_forall.
Qed.

(** X15: whatever the events, resets and clears since the component was
    mounted, every entry has the same value in [type] and in [speaker],
    so the pane shows the user's bubble classes exactly on the entries
    that it labels [You]. *)
Theorem bubble_matches_label acts :
  Forall (λ x, Entry.type x = Entry.speaker x ∧
               (bubble_class x = "bg-blue-100 ml-4" ↔ speaker_label x = "You"))
         (transcript (perform_all acts initial)).
Proof.
  destruct (consistent_perform_all acts initial consistent_initial) as (Hty & _).
  unfold type_is_speaker in Hty. eapply Forall_impl; [exact Hty|].
  intros x Hx. split; [done|]. unfold bubble_class, speaker_label. rewrite Hx.
  by destruct (Entry.speaker x).
Qed.

(** ** The exported text *)

(** X16: the line of an entry in the exported text is its time in
    brackets, then [User] or [Assistant] by its speaker, a colon and the
    message; the id, the type and the partial flag leave no trace, so a
    partial entry is exported like a final one with the same message. *)
Theorem transcript_line_format (time : Z → string) entry :
  transcript_line time entry =
    "[" +:+ time (Entry.timestamp entry) +:+
    match Entry.speaker entry with
    | user => "] User: "
    | assistant => "] Assistant: "
    end +:+ Entry.message entry.
Proof.
  unfold transcript_line. destruct (Entry.speaker entry); reflexivity.
Qed.

Lemma concat_snoc_append (sep a d : string) (ls : list string) :
  String.concat sep (ls ++ [a +:+ d]) = String.concat sep (ls ++ [a]) +:+ d.
Proof.
  induction ls as [|x ls IH]; [done|].
  destruct ls as [|y ls].
  - simpl. by rewrite !string_app_assoc.
  - change (x +:+ sep +:+ String.concat sep ((y :: ls) ++ [a +:+ d]) =
            (x +:+ sep +:+ String.concat sep ((y :: ls) ++ [a])) +:+ d).
    by rewrite IH, !string_app_assoc.
Qed.

Lemma transcript_line_grow time (d : string) l :
  transcript_line time (Entry.grow d l) = transcript_line time l +:+ d.
Proof. unfold transcript_line, Entry.grow. simpl. by rewrite !string_app_assoc. Qed.

(** X17: streaming shows in the exported text as plain growth.  When a
    delta event, not yet processed and with a non-empty fragment, finds a
    partial entry of its speaker's type last, the exported text after the
    ingest is the exported text before it followed by the fragment. *)
Theorem export_grows_with_delta (time : Z → string) env event s who (d : string) l :
  Event.event_id event ∉ processedEventIds s →
  Event.type event ∈ delta_types who →
  payload event = Some d →
  last (transcript s) = Some l →
  Entry.type l = who → Entry.isPartial l = Some true →
  transcriptText time (transcript (ingest env event s)) =
    transcriptText time (transcript s) +:+ d.
Proof.
  intros Hfresh Hty Hp Hl Hwho Hpart.
  rewrite (ingest_of_kind env event s (Delta who) d Hfresh
             (kind_of_delta_type _ _ Hty) Hp). simpl.
  apply last_Some in Hl as [front ->].
  rewrite delta_updater_grow by done.
  unfold transcriptText. rewrite !map_app. simpl.
  rewrite transcript_line_grow. apply concat_snoc_append.
Qed.

Lemma export_grows_with_delta_witness :
  transcriptText (λ _, "10:00:00")
    (transcript
       (ingest env1 (delta_event "input_audio_buffer.transcription.delta" "evt_2" "lo")
               after_user_partial)) =
  "[10:00:00] User: Hello".
Proof.
  apply (export_grows_with_delta (λ _, "10:00:00") env1
           (delta_event "input_audio_buffer.transcription.delta" "evt_2" "lo")
           after_user_partial user "lo"
           (Entry.mk (IdOfEvent "evt_1") user "Hel" 1000 user (Some true))).
  - apply (bool_decide_unpack _). vm_compute. exact I.
  - apply (bool_decide_unpack _). vm_compute. exact I.
  - reflexivity.
  - reflexivity.
  - reflexivity.
  - reflexivity.
Defined.

(** ** The event log and the effect *)

Lemma truthy_some (x : string) : x ≠ EmptyString → truthy (Some x) = true.
Proof.
  intros Hx. simpl. destruct (String.eqb x EmptyString) eqn:E; [|done].
  by apply String.eqb_eq in E.
Qed.

Lemma when_truthy_some (x : string) : x ≠ EmptyString → when_truthy (Some x) = Some x.
Proof.
  intros Hx. simpl. destruct (String.eqb x EmptyString) eqn:E; [|done].
  by apply String.eqb_eq in E.
Qed.

Lemma js_or_truthy (v : jsval) (x : string) :
  x ≠ EmptyString → truthy (js_or v (Some x)) = true.
Proof.
  intros Hx. unfold js_or. destruct (truthy v) eqn:Hv; [done|]. by apply truthy_some.
Qed.

(** X18: with an open channel and a non-empty [crypto.randomUUID()],
    [sendClientEvent] puts exactly one object at the head of the log, and
    that object has a non-empty [event_id]: the one it came with, if it
    had a non-empty one, the fresh one otherwise.  The message handed to
    [send] carries the same id and the timestamp it came with, not the
    one set afterwards.  Without a channel nothing is logged or sent. *)
Theorem sendClientEvent_logs_an_id now uuid message a :
  uuid ≠ EmptyString →
  (∃ logged wire,
     sendClientEvent open_channel now uuid message a =
       finished {| events := logged :: events a; sent := wire :: sent a |} ∧
     truthy (Event.event_id (Logged.event logged)) = true ∧
     Event.event_id (Logged.event logged) =
       (if truthy (Event.event_id (Logged.event message))
        then Event.event_id (Logged.event message) else Some uuid) ∧
     Logged.event wire = Logged.event logged ∧
     Logged.timestamp wire = Logged.timestamp message ∧
     Logged.timestamp logged =
       (if truthy (Logged.timestamp message)
        then Logged.timestamp message else Some now)) ∧
  sendClientEvent no_channel now uuid message a = finished a.
Proof.
  intros Huuid. split; [|done].
  exists (with_timestamp now (with_event_id uuid message)), (with_event_id uuid message).
  split; [done|]. simpl. split; [by apply js_or_truthy|]. done.
Qed.

Lemma sendClientEvent_logs_an_id_witness :
  sendClientEvent open_channel "10:00:00" "uuid-1" response_create
                  {| events := []; sent := [] |} =
    finished
      {| events := [Logged.mk (Event.with_id "uuid-1" (Event.bare "response.create"))
                              (Some "10:00:00")];
         sent := [Logged.mk (Event.with_id "uuid-1" (Event.bare "response.create")) None] |}.
Proof.
  destruct (sendClientEvent_logs_an_id "10:00:00" "uuid-1" response_create
              {| events := []; sent := [] |} ltac:(discriminate))
    as [(logged & wire & Hsend & _) _].
  reflexivity.
Defined.

Lemma ignored_type_unchanged env event rest s :
  payload event = None →
  processEvents env (Some (event :: rest)) s = s.
Proof. intros Hp. simpl. by apply ingest_no_payload. Qed.



(** X20: the listener of [message] logs the server event at the head of
    the log, and a run of the effect then ingests that event; but for an
    event of type [conversation.item.input_audio_transcription.completed]
    on an open channel it also logs a [response.create] request above it,
    and a run of the effect on that log changes nothing. *)
Theorem server_event_and_effect is_open now now' uuid (event : Logged.t) a env s :
  (if String.eqb (Event.type (Logged.event event))
                 "conversation.item.input_audio_transcription.completed"
   then
     ∃ request,
       on_message true now now' uuid event a =
         finished {| events := request :: with_timestamp now event :: events a;
                     sent := with_event_id uuid response_create :: sent a |} ∧
       Event.type (Logged.event request) = "response.create" ∧
       processEvents env (events_prop (app_of (on_message true now now' uuid event a))) s = s
   else
     on_message is_open now now' uuid event a =
       finished {| events := with_timestamp now event :: events a; sent := sent a |} ∧
     processEvents env (events_prop (app_of (on_message is_open now now' uuid event a))) s =
       ingest env (Logged.event event) s).
Proof.
  unfold on_message.
  destruct (String.eqb (Event.type (Logged.event event))
              "conversation.item.input_audio_transcription.completed").
  - eexists. split; [reflexivity|]. split; [reflexivity|].
    by apply ignored_type_unchanged.
  - by split.
Qed.

(** X21: the listener of [open] empties the log and, on the open
    channel, logs the session update at once, so it leaves a log of
    exactly one object.  A run of the effect on that log changes
    nothing; the transcript and the processed ids are cleared only by a
    run on the empty log in between. *)
Theorem open_handler_and_effect now uuid a env s :
  ∃ update,
    on_open true now uuid a =
      finished {| events := [update]; sent := with_event_id uuid session_update :: sent a |} ∧
    Event.type (Logged.event update) = "session.update" ∧
    processEvents env (events_prop (app_of (on_open true now uuid a))) s = s ∧
    processEvents env (events_prop {| events := []; sent := sent a |}) s = initial.
Proof.
  eexists. split; [reflexivity|]. split; [reflexivity|]. split; [|reflexivity].
  by apply ignored_type_unchanged.
Qed.

(** ** The routes of the server *)

Lemma status_ok_500 : status_ok 500 = false.
Proof. reflexivity. Qed.

(** X22: [POST /session] answers with a status in 200-299 exactly when
    the API key is set and the upstream answered in 200-299 with a
    readable body; the answer is then 200 with that body.  Whenever the
    key is set and the upstream body could be read, the body is relayed
    as it is, and a status outside 200-299 is relayed with it. *)
Theorem post_session_relays apiKey up :
  (status_ok (session_status (post_session apiKey up)) = true ↔
   ∃ status sdp,
     truthy apiKey = true ∧ up = session_fetched status (Some sdp) ∧
     status_ok status = true ∧
     post_session apiKey up = {| session_status := 200; session_body := sdp |}) ∧
  (∀ status sdp,
     truthy apiKey = true → up = session_fetched status (Some sdp) →
     session_body (post_session apiKey up) = sdp ∧
     (status_ok status = false → session_status (post_session apiKey up) = status)).
Proof.
  unfold post_session. split; [split|].
  - destruct (truthy apiKey); [|done].
    destruct up as [|status [sdp|]]; [done| |done].
    destruct (status_ok status) eqn:Hok; simpl; [|congruence].
    intros _. by exists status, sdp.
  - intros (status & sdp & -> & -> & -> & _). done.
  - intros status sdp -> ->. by destruct (status_ok status).
Qed.

Lemma post_session_relays_witness :
  (session_body (post_session (Some "sk-test") (session_fetched 401 (Some "denied")))
     = "denied" ∧
   session_status (post_session (Some "sk-test") (session_fetched 401 (Some "denied")))
     = 401%Z) ∧
  post_session None (session_fetched 201 (Some "v=0")) =
    {| session_status := 500; session_body := "Missing OPENAI_API_KEY" |}.
Proof.
  split; [|reflexivity].
  destruct (proj2 (post_session_relays (Some "sk-test")
                     (session_fetched 401 (Some "denied")))
                  401%Z "denied" eq_refl eq_refl) as [Hbody Hstatus].
  split; [exact Hbody|]. by apply Hstatus.
Defined.

Section TokenValue.

Context {V : Type} (truthyV : V → bool).





End TokenValue.

